(** * coffee.py: bounded model checking of the coffee can game

    A shallow embedding of [coffee.py].  The program builds one Z3
    boolean term saying that from [x] black and [y] white beans the
    configuration (0,1) is met after [n] steps, and asks the solver
    whether the term is satisfiable.

    Python integers are [Z], Python lists are [list], the Z3 terms the
    program builds are the inductive [formula], and a Z3 model is a
    [valuation] of the boolean constants, which Z3 identifies by name. *)

From Stdlib Require Import ZArith List String Ascii Bool Lia.
From Stdlib Require Import DecimalString DecimalZ.
From Equations Require Import Equations.
Import ListNotations.
Open Scope Z_scope.

Set Warnings "-register-all".

(** ** The fragment of Z3 the program uses *)

Module Z3.

(** [Bool name] is the boolean constant called [name]; [And] and [Or]
    are n-ary, with [And []] true and [Or []] false. *)
Inductive formula : Type :=
| Bool (name : string)
| And (fs : list formula)
| Or (fs : list formula)
| Implies (a b : formula)
| Not (a : formula).

(** A Z3 model: the truth value of each constant, by name. *)
Definition valuation : Type := string -> bool.

Fixpoint eval (v : valuation) (f : formula) : bool :=
  match f with
  | Bool name => v name
  | And fs => forallb (eval v) fs
  | Or fs => existsb (eval v) fs
  | Implies a b => implb (eval v a) (eval v b)
  | Not a => negb (eval v a)
  end.

(** What [Solver.check] decides. *)
Definition satisfiable (f : formula) : Prop :=
  exists v : valuation, eval v f = true.

Definition equivalent (f g : formula) : Prop :=
  forall v : valuation, eval v f = eval v g.

End Z3.
Export Z3.

(** ** Python built-ins *)

(** [str(z)] on an integer: decimal digits, with a leading minus sign on
    negative numbers. *)
Definition str (z : Z) : string := NilEmpty.string_of_int (Z.to_int z).

(** [range(lo, hi)] as a list. *)
Definition range (lo hi : Z) : list Z :=
  map (fun i => lo + Z.of_nat i) (seq 0 (Z.to_nat (hi - lo))).

(** [z in range(lo, hi)]. *)
Definition in_range (z lo hi : Z) : bool := (lo <=? z) && (z <? hi).

(** Failed [assert]s. *)
Inductive exn : Type :=
| AssertionError (msg : string).

Inductive result (A : Type) : Type :=
| Ok (a : A)
| Raise (e : exn).
Arguments Ok {A} a.
Arguments Raise {A} e.

(** ** The encoder *)

(** The two colours [bean] accepts.  Every call in the program passes
    the literal ['black'] or ['white'], so the assertions of [bean] on
    its arguments hold by typing. *)
Inductive colour : Type := black | white.

Definition colour_str (c : colour) : string :=
  match c with
  | black => "black"
  | white => "white"
  end.

Definition bean (c : colour) (val step : Z) : formula :=
  Bool ("_" ++ colour_str c ++ "_" ++ str val ++ "_" ++ str step).

Definition init (x y : Z) : formula :=
  And [bean black x 0; bean white y 0].

Definition final (x y n : Z) : formula :=
  And [bean black x n; bean white y n].

Definition uniqueVal (x0 y0 n : Z) : formula :=
  let List1 :=
    flat_map (fun x =>
      map (fun x1 => Implies (bean black x n) (Not (bean black x1 n)))
          (filter (fun x1 => x1 >? x) (range 0 (x0 + y0 + 1))))
      (range 0 (x0 + y0 + 1)) in
  let List2 :=
    flat_map (fun y =>
      map (fun y1 => Implies (bean white y n) (Not (bean white y1 n)))
          (filter (fun y1 => y1 >? y) (range 0 (x0 + y0 + 1))))
      (range 0 (x0 + y0 + 1)) in
  And (List1 ++ List2).

Definition uniqueVals (x0 y0 n0 : Z) : formula :=
  And (map (fun i => uniqueVal x0 y0 i) (range 0 (n0 + 1))).

(** The three tests of [nextStep], in the order of the source. *)
Definition rule1 (x y : Z) : bool := y >=? 2.
Definition rule2 (x y : Z) : bool := (x >=? 2) || ((x >=? 1) && (y >=? 1)).
Definition rule3 (x y : Z) : bool :=
  ((x =? 1) && (y =? 0)) || ((x =? 0) && (y =? 1)).

(** The disjuncts [NextConfs] and the points [NextPoints] that
    [nextStep] has collected when it returns.  The three [if]s run one
    after the other, each appending to the lists of the one before. *)
Definition NextConfs (x y n : Z) : list formula :=
  let black0 := bean black x n in
  let white0 := bean white y n in
  let confs := [] in
  let confs :=
    if rule1 x y
    then confs ++ [And [bean black (x + 1) (n + 1); bean white (y - 2) (n + 1)]]
    else confs in
  let confs :=
    if rule2 x y
    then confs ++ [And [bean black (x - 1) (n + 1); bean white y (n + 1)]]
    else confs in
  let confs :=
    if rule3 x y
    then confs ++ [And [black0; white0]]
    else confs in
  confs.

Definition NextPoints (x y : Z) : list (Z * Z) :=
  let points := [] in
  let points := if rule1 x y then points ++ [(x + 1, y - 2)] else points in
  let points := if rule2 x y then points ++ [(x - 1, y)] else points in
  points.

Definition nextStep (x y n : Z) : formula * list (Z * Z) :=
  let black0 := bean black x n in
  let white0 := bean white y n in
  (Implies (And [black0; white0]) (Or (NextConfs x y n)), NextPoints x y).

(** The variables of the loop of [allTransitions]. *)
Record sweep : Type := Sweep {
  transitions_optimised : list formula;
  next_transitions : list (Z * Z);
  step_n : Z
}.

(** One round of the inner [for]: the tuple assignment overwrites
    [next_transitions_new] with the points of the configuration at
    hand. *)
Definition for_body (x0 y0 n : Z)
    (acc : list formula * list (Z * Z)) (p : Z * Z)
  : list formula * list (Z * Z) :=
  let '(x, y) := p in
  if in_range x 0 (x0 + y0 + 1) && in_range y 0 (x0 + y0 + 1)
  then
    let '(next_step, next_transitions_new) := nextStep x y n in
    (fst acc ++ [next_step], next_transitions_new)
  else acc.

Definition while_cond (n0 : Z) (s : sweep) : bool :=
  match next_transitions s with
  | [] => false
  | _ :: _ => step_n s <? n0 + 1
  end.

Definition while_body (x0 y0 : Z) (s : sweep) : sweep :=
  let '(transitions, next_transitions_new) :=
    fold_left (for_body x0 y0 (step_n s)) (next_transitions s)
              (transitions_optimised s, []) in
  Sweep transitions next_transitions_new (step_n s + 1).

Equations? while_loop (x0 y0 n0 : Z) (s : sweep) : sweep
  by wf (Z.to_nat (n0 + 1 - step_n s)) lt :=
  while_loop x0 y0 n0 s with Sumbool.sumbool_of_bool (while_cond n0 s) => {
    | left _ := while_loop x0 y0 n0 (while_body x0 y0 s);
    | right _ := s }.
Proof.
  match goal with H : while_cond _ _ = true |- _ => revert H end.
  unfold while_cond, while_body.
  destruct (fold_left _ _ _) as [t nt]. cbn [step_n].
  destruct (next_transitions s); [discriminate|].
  intros H. apply Z.ltb_lt in H. lia.
Qed.

Definition allTransitions (x0 y0 n0 : Z) : formula :=
  And (transitions_optimised (while_loop x0 y0 n0 (Sweep [] [(x0, y0)] 0))).

Definition Gries (x y n : Z) : result formula :=
  if negb (x + y >=? 1) then Raise (AssertionError "Gries: x+y is < 1")
  else if negb (n >=? 0) then Raise (AssertionError "Gries: n is < 0")
  else Ok (And [init x y; final 0 1 n; allTransitions x y n; uniqueVals x y n]).


Section Solver.

(** [Solver().add(f)] followed by [check()] and [model()]: [Some m]
    stands for [sat] with model [m], [None] for [unsat]. *)
Variable solve : formula -> option valuation.


End Solver.


(** ** The sweep without pruning

    The variant the specification compares [allTransitions] with: the
    implication of [nextStep] for every configuration of the square
    [0..x0+y0] x [0..x0+y0], at every step of [0..n0]. *)
Definition allTransitions_unpruned (x0 y0 n0 : Z) : formula :=
  And (flat_map (fun n =>
         flat_map (fun x =>
           map (fun y => fst (nextStep x y n)) (range 0 (x0 + y0 + 1)))
           (range 0 (x0 + y0 + 1)))
         (range 0 (n0 + 1))).

(** The states the loop of [allTransitions] goes through, one per test
    of the loop condition. *)
Inductive sweep_reaches (x0 y0 n0 : Z) : sweep -> Prop :=
| reaches_start : sweep_reaches x0 y0 n0 (Sweep [] [(x0, y0)] 0)
| reaches_round s :
    sweep_reaches x0 y0 n0 s ->
    while_cond n0 s = true ->
    sweep_reaches x0 y0 n0 (while_body x0 y0 s).

(** A configuration is expanded at a step when the loop calls
    [nextStep] on it there: it is in [next_transitions] when the loop
    condition holds and it passes the range test. *)
Definition expanded (x0 y0 n0 : Z) (p : Z * Z) (n : Z) : Prop :=
  exists s,
    sweep_reaches x0 y0 n0 s /\ while_cond n0 s = true /\
    step_n s = n /\ In p (next_transitions s) /\
    (in_range (fst p) 0 (x0 + y0 + 1)
     && in_range (snd p) 0 (x0 + y0 + 1))%bool = true.

(** The count of colour [c] in configuration [p]. *)
Definition count (c : colour) (p : Z * Z) : Z :=
  match c with
  | black => fst p
  | white => snd p
  end.

(** In model [v], the count variables of step [n] with a value in
    [0..d] pick out the configuration [p] and nothing else. *)
Definition config_at (v : valuation) (d n : Z) (p : Z * Z) : Prop :=
  forall c val, 0 <= val <= d ->
    (eval v (bean c val n) = true <-> val = count c p).

(** Both components of [p] are in [0..d]. *)
Definition in_square (d : Z) (p : Z * Z) : Prop :=
  0 <= fst p <= d /\ 0 <= snd p <= d.

(** In model [v], at step [n], colour [c] has at most one, respectively
    exactly one, true count variable with a value in [0..d]. *)
Definition at_most_one_count (v : valuation) (d : Z) (c : colour) (n : Z)
  : Prop :=
  forall a b, 0 <= a <= d -> 0 <= b <= d ->
    eval v (bean c a n) = true -> eval v (bean c b n) = true -> a = b.

Definition exactly_one_count (v : valuation) (d : Z) (c : colour) (n : Z)
  : Prop :=
  exists val, 0 <= val <= d /\ eval v (bean c val n) = true /\
    forall val', 0 <= val' <= d -> eval v (bean c val' n) = true ->
      val' = val.

(** The valuation that makes exactly the listed names true. *)
Definition only (names : list string) : valuation :=
  fun name => existsb (String.eqb name) names.

(** The name of a boolean constant. *)
Definition var_name (f : formula) : string :=
  match f with
  | Bool name => name
  | _ => EmptyString
  end.

(** The valuation that makes exactly the count variables of the listed
    triples (colour, value, step) true. *)
Definition model_of (beans : list (colour * Z * Z)) : valuation :=
  only (map (fun '(c, val, step) => var_name (bean c val step)) beans).

(** The state of the loop of [allTransitions] after [k] rounds. *)
Fixpoint sweep_after (x0 y0 : Z) (k : nat) : sweep :=
  match k with
  | O => Sweep [] [(x0, y0)] 0
  | S k' => while_body x0 y0 (sweep_after x0 y0 k')
  end.

(** Does character [c] occur in [s]? *)
Fixpoint occurs (c : ascii) (s : string) : bool :=
  match s with
  | EmptyString => false
  | String a s' => Ascii.eqb a c || occurs c s'
  end.

(** A list of triples that gives each colour at most one value per step
    gives a model of the uniqueness constraints. *)
Definition functional (beans : list (colour * Z * Z)) : Prop :=
  forall c a b step,
    In (c, a, step) beans -> In (c, b, step) beans -> a = b.

(** A model of the formula of the default input of [main]. *)
Definition trace_10_10 : list (colour * Z * Z) :=
  [(black, 10, 0); (white, 10, 0);
   (black, 11, 1); (white, 8, 1);
   (black, 12, 2); (white, 6, 2);
   (black, 0, 19); (white, 1, 19)].

(** ** Traces and plays of the game *)

(** A trace lists configurations with the step they are held at; its
    count variables are those of the listed configurations. *)
Definition beans_of (tr : list (Z * (Z * Z))) : list (colour * Z * Z) :=
  flat_map (fun e => [(black, fst (snd e), fst e); (white, snd (snd e), fst e)])
           tr.

Definition one_config_per_step (tr : list (Z * (Z * Z))) : Prop :=
  forall k q q', In (k, q) tr -> In (k, q') tr -> q = q'.

(** Each configuration of the trace is a fixed point of rule 3 or is
    followed, one step later, by one of the next configurations
    [nextStep] returns for it. *)
Definition follows_rules (tr : list (Z * (Z * Z))) : Prop :=
  forall k q, In (k, q) tr ->
    rule3 (fst q) (snd q) = true \/
    exists q', In q' (NextPoints (fst q) (snd q)) /\ In (k + 1, q') tr.

(** The play that always moves to the first next configuration
    [nextStep] returns, and stays where there is none. *)
Definition play (p : Z * Z) : Z * Z :=
  match NextPoints (fst p) (snd p) with
  | q :: _ => q
  | [] => p
  end.

Fixpoint play_n (j : nat) (p : Z * Z) : Z * Z :=
  match j with
  | O => p
  | S j' => play (play_n j' p)
  end.

(** The first [m] configurations of that play, from step 0. *)
Definition run (m : nat) (p : Z * Z) : list (Z * (Z * Z)) :=
  map (fun j => (Z.of_nat j, play_n j p)) (seq 0 m).

(** The range test of the inner [for] of [allTransitions]. *)
Definition passes_range_test (x0 y0 : Z) (p : Z * Z) : bool :=
  in_range (fst p) 0 (x0 + y0 + 1) && in_range (snd p) 0 (x0 + y0 + 1).


(** ** The loop of [allTransitions]: one round *)

Lemma while_cond_lt n0 s : while_cond n0 s = true -> step_n s < n0 + 1.
Proof.
  unfold while_cond. destruct (next_transitions s); [discriminate|].
  apply Z.ltb_lt.
Qed.

Lemma while_body_step_n x0 y0 s : step_n (while_body x0 y0 s) = step_n s + 1.
Proof.
  unfold while_body.
  destruct (fold_left _ _ _) as [t nt]. reflexivity.
Qed.

(** ** Python built-ins: facts *)

Lemma In_range z lo hi : In z (range lo hi) <-> lo <= z < hi.
Proof.
  unfold range. rewrite in_map_iff. split.
  - intros (i & <- & Hi). apply in_seq in Hi. lia.
  - intros H. exists (Z.to_nat (z - lo)). split; [lia|].
    apply in_seq. lia.
Qed.

Lemma in_range_spec z lo hi : in_range z lo hi = true <-> lo <= z < hi.
Proof. unfold in_range. rewrite andb_true_iff, Z.leb_le, Z.ltb_lt. tauto. Qed.

Lemma str_inj a b : str a = str b -> a = b.
Proof.
  unfold str. intros H. apply DecimalZ.to_int_inj.
  apply (f_equal NilEmpty.int_of_string) in H.
  rewrite !NilEmpty.isi in H. congruence.
Qed.

Lemma string_of_uint_no_underscore u :
  occurs "_" (NilEmpty.string_of_uint u) = false.
Proof. induction u; simpl; auto. Qed.

Lemma str_no_underscore z : occurs "_" (str z) = false.
Proof.
  unfold str. destruct (Z.to_int z); simpl;
    apply string_of_uint_no_underscore.
Qed.

(** A separator that occurs in neither field splits a string in one
    way only. *)
Lemma split_at_separator c a a' b b' :
  occurs c a = false -> occurs c a' = false ->
  (a ++ String c b)%string = (a' ++ String c b')%string ->
  a = a' /\ b = b'.
Proof.
  revert a'. induction a as [|h a IH]; intros [|h' a'] Ha Ha' E; simpl in *.
  - injection E as ->. auto.
  - injection E as <- _. rewrite Ascii.eqb_refl in Ha'. discriminate.
  - injection E as -> _. rewrite Ascii.eqb_refl in Ha. discriminate.
  - injection E as -> E.
    apply orb_false_iff in Ha as [_ Ha]. apply orb_false_iff in Ha' as [_ Ha'].
    destruct (IH a' Ha Ha' E) as [-> ->]. auto.
Qed.

(** ** [bean]: one constant per triple *)

Lemma bean_inj c val step c' val' step' :
  bean c val step = bean c' val' step' ->
  c = c' /\ val = val' /\ step = step'.
Proof.
  unfold bean. intros E. injection E as E.
  assert (Hc : c = c') by (destruct c, c'; simpl in E; congruence).
  subst c'. split; [reflexivity|].
  assert (E' : (str val ++ String "_" (str step))%string
               = (str val' ++ String "_" (str step'))%string)
    by (destruct c; simpl in E; congruence).
  apply split_at_separator in E' as [Hv Hs]; auto using str_no_underscore.
  split; apply str_inj; assumption.
Qed.

Lemma bean_eq_iff c val step c' val' step' :
  bean c val step = bean c' val' step' <->
  (c, val, step) = (c', val', step').
Proof.
  split.
  - intros E. apply bean_inj in E as (-> & -> & ->). reflexivity.
  - intros E. injection E as -> -> ->. reflexivity.
Qed.

(** ** Models of n-ary connectives *)

Lemma eval_And v fs :
  eval v (And fs) = true <-> forall f, In f fs -> eval v f = true.
Proof. simpl. apply forallb_forall. Qed.

Lemma eval_Or v fs :
  eval v (Or fs) = true <-> exists f, In f fs /\ eval v f = true.
Proof. simpl. apply existsb_exists. Qed.

Lemma eval_And2 v a b :
  eval v (And [a; b]) = true <-> eval v a = true /\ eval v b = true.
Proof. simpl. rewrite andb_true_r. apply andb_true_iff. Qed.

Lemma eval_Implies v a b :
  eval v (Implies a b) = true <-> (eval v a = true -> eval v b = true).
Proof.
  simpl. destruct (eval v a), (eval v b); simpl; intuition congruence.
Qed.

(** ** [uniqueVal]: at most one value per colour and step *)

Lemma uniqueVal_conjunct x0 y0 n c lo hi :
  0 <= lo -> lo < hi -> hi <= x0 + y0 ->
  forall v, eval v (uniqueVal x0 y0 n) = true ->
  eval v (Implies (bean c lo n) (Not (bean c hi n))) = true.
Proof.
  intros Hlo Hlt Hhi v Hv.
  unfold uniqueVal in Hv. rewrite eval_And in Hv. apply Hv.
  apply in_or_app.
  destruct c; [left | right]; apply in_flat_map; exists lo;
    (split; [apply In_range; lia|]);
    apply in_map_iff; exists hi; (split; [reflexivity|]);
    apply filter_In; (split; [apply In_range; lia|]);
    apply Z.gtb_lt; lia.
Qed.

Lemma uniqueVal_at_most_one v x0 y0 n c a b :
  eval v (uniqueVal x0 y0 n) = true ->
  0 <= a <= x0 + y0 -> 0 <= b <= x0 + y0 ->
  eval v (bean c a n) = true -> eval v (bean c b n) = true ->
  a = b.
Proof.
  intros Hu Ha Hb Hva Hvb.
  destruct (Z.lt_trichotomy a b) as [Hlt | [Heq | Hgt]]; [|assumption|].
  - pose proof (uniqueVal_conjunct x0 y0 n c a b ltac:(lia) Hlt ltac:(lia) v Hu)
      as H.
    rewrite eval_Implies in H. specialize (H Hva).
    cbn [eval] in H. rewrite Hvb in H. discriminate.
  - pose proof (uniqueVal_conjunct x0 y0 n c b a ltac:(lia) Hgt ltac:(lia) v Hu)
      as H.
    rewrite eval_Implies in H. specialize (H Hvb).
    cbn [eval] in H. rewrite Hva in H. discriminate.
Qed.

Lemma uniqueVals_step v x0 y0 n0 i :
  eval v (uniqueVals x0 y0 n0) = true -> 0 <= i <= n0 ->
  eval v (uniqueVal x0 y0 i) = true.
Proof.
  intros Hu Hi. unfold uniqueVals in Hu. rewrite eval_And in Hu.
  apply Hu. apply in_map_iff. exists i. split; [reflexivity|].
  apply In_range. lia.
Qed.

(** ** [Gries]: when it returns and what it returns *)

Lemma Gries_Ok_inv x y n f :
  Gries x y n = Ok f ->
  1 <= x + y /\ 0 <= n /\
  f = And [init x y; final 0 1 n; allTransitions x y n; uniqueVals x y n].
Proof.
  unfold Gries.
  destruct (Z.geb_spec (x + y) 1); simpl; [|discriminate].
  destruct (Z.geb_spec n 0); simpl; [|discriminate].
  intros [= <-]. repeat split; lia.
Qed.

Lemma Gries_Ok x y n :
  1 <= x + y -> 0 <= n ->
  Gries x y n =
  Ok (And [init x y; final 0 1 n; allTransitions x y n; uniqueVals x y n]).
Proof.
  intros Hxy Hn. unfold Gries.
  destruct (Z.geb_spec (x + y) 1); simpl; [|lia].
  destruct (Z.geb_spec n 0); simpl; [reflexivity|lia].
Qed.

Lemma Gries_model x y n f v :
  Gries x y n = Ok f -> eval v f = true ->
  eval v (init x y) = true /\ eval v (final 0 1 n) = true /\
  eval v (allTransitions x y n) = true /\ eval v (uniqueVals x y n) = true.
Proof.
  intros HG Hv. apply Gries_Ok_inv in HG as (_ & _ & ->).
  rewrite eval_And in Hv.
  repeat split; apply Hv; simpl; auto.
Qed.

(** A state predicate that holds in a model with [uniqueVal] fixes the
    configuration of its step. *)
Lemma state_fixes_config v x0 y0 n x y :
  eval v (uniqueVal x0 y0 n) = true ->
  eval v (And [bean black x n; bean white y n]) = true ->
  0 <= x <= x0 + y0 -> 0 <= y <= x0 + y0 ->
  config_at v (x0 + y0) n (x, y).
Proof.
  intros Hu Hs Hx Hy c val Hval.
  apply eval_And2 in Hs as [Hb Hw].
  split.
  - intros Hv. destruct c; simpl;
      eapply uniqueVal_at_most_one; eauto.
  - intros ->. destruct c; assumption.
Qed.

(** ** [nextStep]: the three rules *)

Lemma rule3_iff x y :
  rule3 x y = true <-> (x, y) = (1, 0) \/ (x, y) = (0, 1).
Proof.
  unfold rule3.
  rewrite orb_true_iff, !andb_true_iff, !Z.eqb_eq.
  split.
  - intros [[-> ->] | [-> ->]]; auto.
  - intros [[= -> ->] | [= -> ->]]; auto.
Qed.

Lemma rule1_iff x y : rule1 x y = true <-> 2 <= y.
Proof. unfold rule1. rewrite Z.geb_le. tauto. Qed.

Lemma rule2_iff x y : rule2 x y = true <-> 2 <= x \/ (1 <= x /\ 1 <= y).
Proof.
  unfold rule2. rewrite orb_true_iff, andb_true_iff, !Z.geb_le. tauto.
Qed.

(** The third rule never fires together with one of the others. *)
Lemma rule3_alone x y :
  rule3 x y = true -> rule1 x y = false /\ rule2 x y = false.
Proof.
  intros H. apply rule3_iff in H.
  destruct H as [[= -> ->] | [= -> ->]]; split; reflexivity.
Qed.

Lemma NextPoints_In x y p :
  In p (NextPoints x y) <->
  (rule1 x y = true /\ p = (x + 1, y - 2)) \/
  (rule2 x y = true /\ p = (x - 1, y)).
Proof.
  unfold NextPoints.
  destruct (rule1 x y), (rule2 x y); simpl; intuition congruence.
Qed.

Lemma NextConfs_self_loop x y n :
  rule3 x y = true ->
  NextConfs x y n = [And [bean black x n; bean white y n]].
Proof.
  intros H. destruct (rule3_alone x y H) as [H1 H2].
  unfold NextConfs. rewrite H, H1, H2. reflexivity.
Qed.

Lemma nextStep_self_loop x y n :
  rule3 x y = true ->
  nextStep x y n =
    (Implies (And [bean black x n; bean white y n])
       (Or [And [bean black x n; bean white y n]]), []).
Proof.
  intros H. unfold nextStep. rewrite (NextConfs_self_loop x y n H).
  destruct (rule3_alone x y H) as [H1 H2].
  unfold NextPoints. rewrite H1, H2. reflexivity.
Qed.

Lemma self_loop_holds x y n v :
  rule3 x y = true -> eval v (fst (nextStep x y n)) = true.
Proof.
  intros H. rewrite (nextStep_self_loop x y n H). cbn [fst].
  apply eval_Implies. intros Hp.
  apply eval_Or. eexists. split; [left; reflexivity | exact Hp].
Qed.

(** C4. At the configuration (1,2), which has x+y >= 1, the tests of
    rule 1 (y >= 2) and of rule 2 (x >= 1 and y >= 1) both succeed, and
    the disjunction and the point list returned by [nextStep] hold the
    branches of both rules: (2,0) from rule 1 and (0,2) from rule 2. *)
Theorem nextStep_rules_overlap :
  rule1 1 2 = true /\ rule2 1 2 = true /\ rule3 1 2 = false /\
  nextStep 1 2 0 =
    (Implies (And [bean black 1 0; bean white 2 0])
       (Or [And [bean black 2 1; bean white 0 1];
            And [bean black 0 1; bean white 2 1]]),
     [(2, 0); (0, 2)]).
Proof. repeat split. Qed.

(** Rules 1 and 2 fire together on a whole region, not at one point. *)
Lemma rules_1_2_overlap x y :
  1 <= x -> 2 <= y -> rule1 x y = true /\ rule2 x y = true.
Proof.
  intros Hx Hy. split; [apply rule1_iff | apply rule2_iff]; lia.
Qed.

(** C6. At (1,0) and at (0,1), whatever the step [n], [nextStep]
    returns the implication whose only disjunct is its own premise,
    built on the variables of step [n]; the implication holds in every
    valuation, so it says nothing on step [n+1]; and the list of next
    configurations is empty, so the sweep has no successor to expand. *)
Theorem nextStep_self_loop_is_tautology x y n :
  (x, y) = (1, 0) \/ (x, y) = (0, 1) ->
  nextStep x y n =
    (Implies (And [bean black x n; bean white y n])
       (Or [And [bean black x n; bean white y n]]), []) /\
  (forall v, eval v (fst (nextStep x y n)) = true).
Proof.
  intros H. apply rule3_iff in H. split.
  - apply nextStep_self_loop. exact H.
  - intros v. apply self_loop_holds. exact H.
Qed.

Lemma nextStep_self_loop_is_tautology_witness :
  nextStep 1 0 7 =
    (Implies (And [bean black 1 7; bean white 0 7])
       (Or [And [bean black 1 7; bean white 0 7]]), []) /\
  (forall v, eval v (fst (nextStep 1 0 7)) = true).
Proof.
  apply (nextStep_self_loop_is_tautology 1 0 7). left. reflexivity.
Defined.

(** C7. Every next configuration [nextStep] returns is (x+1, y-2), from
    rule 1, or (x-1, y), from rule 2, and its components sum to
    x+y-1; where rule 3 fires the total is 1 and the one disjunct is
    the configuration (x,y) itself. *)
Theorem nextStep_total_decreases x y n :
  (forall p, In p (snd (nextStep x y n)) ->
     (p = (x + 1, y - 2) \/ p = (x - 1, y)) /\
     fst p + snd p = x + y - 1) /\
  (rule3 x y = true ->
     x + y = 1 /\
     NextConfs x y n = [And [bean black x n; bean white y n]]).
Proof.
  split.
  - intros p Hp. cbn [nextStep snd] in Hp.
    apply NextPoints_In in Hp as [[_ ->] | [_ ->]]; simpl; split; auto; lia.
  - intros H. split; [|apply NextConfs_self_loop; exact H].
    apply rule3_iff in H as [[= -> ->] | [= -> ->]]; reflexivity.
Qed.

Lemma nextStep_total_decreases_witness :
  (forall p, In p (snd (nextStep 3 4 2)) ->
     (p = (3 + 1, 4 - 2) \/ p = (3 - 1, 4)) /\
     fst p + snd p = 3 + 4 - 1) /\
  (rule3 3 4 = true ->
     3 + 4 = 1 /\
     NextConfs 3 4 2 = [And [bean black 3 2; bean white 4 2]]).
Proof. exact (nextStep_total_decreases 3 4 2). Defined.

(** ** [Gries]: the assertions *)

(** C9. [Gries] raises exactly when x+y < 1 or n < 0; the two
    assertions are the first thing it runs, so a call that raises has
    built no formula; with x+y = 0 the first assertion fails. *)
Theorem Gries_raises_iff x y n :
  ((exists e, Gries x y n = Raise e) <-> (x + y < 1 \/ n < 0)) /\
  (x + y < 1 -> Gries x y n = Raise (AssertionError "Gries: x+y is < 1")) /\
  (1 <= x + y -> n < 0 ->
     Gries x y n = Raise (AssertionError "Gries: n is < 0")).
Proof.
  unfold Gries.
  destruct (Z.geb_spec (x + y) 1) as [Hxy | Hxy];
    destruct (Z.geb_spec n 0) as [Hn | Hn]; simpl.
  - repeat split; try lia. intros [e He]. discriminate.
  - repeat split; try lia; eauto.
  - repeat split; try lia; eauto.
  - repeat split; try lia; eauto.
Qed.

Lemma Gries_raises_iff_witness :
  Gries 0 0 5 = Raise (AssertionError "Gries: x+y is < 1").
Proof.
  apply (proj1 (proj2 (Gries_raises_iff 0 0 5))). lia.
Defined.

(** ** [bean]: the names *)

(** C10. Two calls of [bean] return the same constant exactly when
    their arguments are the same triple: equal arguments give the same
    constant, and different triples give different names, for every
    integer value and step (the non-negative ones among them); the
    values 10 and 1 at step 0 do not collide. *)
Theorem bean_identity_stable_and_collision_free :
  (forall c val step c' val' step',
      bean c val step = bean c' val' step' <->
      (c, val, step) = (c', val', step')) /\
  (forall c c' step, bean c 10 0 <> bean c' 1 step).
Proof.
  split.
  - intros. apply bean_eq_iff.
  - intros c c' step E. apply bean_inj in E as (_ & E & _). discriminate.
Qed.

(** ** The loop of [allTransitions] *)

Lemma while_loop_true x0 y0 n0 s :
  while_cond n0 s = true ->
  while_loop x0 y0 n0 s = while_loop x0 y0 n0 (while_body x0 y0 s).
Proof.
  intros H. rewrite while_loop_equation_1 at 1.
  destruct (Sumbool.sumbool_of_bool (while_cond n0 s)) as [e|e].
  - reflexivity.
  - congruence.
Qed.

Lemma while_loop_false x0 y0 n0 s :
  while_cond n0 s = false -> while_loop x0 y0 n0 s = s.
Proof.
  intros H. rewrite while_loop_equation_1.
  destruct (Sumbool.sumbool_of_bool (while_cond n0 s)) as [e|e].
  - congruence.
  - reflexivity.
Qed.

(** The state the loop ends in is one of those it goes through, and the
    loop condition fails there. *)
Lemma while_loop_reaches x0 y0 n0 s :
  sweep_reaches x0 y0 n0 s ->
  sweep_reaches x0 y0 n0 (while_loop x0 y0 n0 s) /\
  while_cond n0 (while_loop x0 y0 n0 s) = false.
Proof.
  remember (Z.to_nat (n0 + 1 - step_n s)) as m eqn:Hm.
  revert s Hm. induction m as [m IH] using lt_wf_ind. intros s Hm Hs.
  destruct (while_cond n0 s) eqn:Hc.
  - rewrite (while_loop_true _ _ _ _ Hc).
    apply (IH (Z.to_nat (n0 + 1 - step_n (while_body x0 y0 s)))).
    + rewrite while_body_step_n. apply while_cond_lt in Hc. lia.
    + reflexivity.
    + apply reaches_round; assumption.
  - rewrite (while_loop_false _ _ _ _ Hc). split; assumption.
Qed.

(** What the inner [for] leaves in its two variables. *)
Lemma for_loop_spec x0 y0 n l :
  forall t nt,
  let r := fold_left (for_body x0 y0 n) l (t, nt) in
  (forall f, In f (fst r) ->
     In f t \/
     exists p, In p l /\
       in_range (fst p) 0 (x0 + y0 + 1)
         && in_range (snd p) 0 (x0 + y0 + 1) = true /\
       f = fst (nextStep (fst p) (snd p) n)) /\
  (snd r = nt \/
   exists p, In p l /\
     in_range (fst p) 0 (x0 + y0 + 1)
       && in_range (snd p) 0 (x0 + y0 + 1) = true /\
     snd r = NextPoints (fst p) (snd p)).
Proof.
  induction l as [|[x y] l IH]; intros t nt; cbn zeta.
  - simpl. split; auto.
  - cbn [fold_left].
    destruct (in_range x 0 (x0 + y0 + 1) && in_range y 0 (x0 + y0 + 1))
      eqn:Hr.
    + assert (E : for_body x0 y0 n (t, nt) (x, y)
                  = (t ++ [fst (nextStep x y n)], NextPoints x y))
        by (unfold for_body; rewrite Hr; reflexivity).
      rewrite E.
      destruct (IH (t ++ [fst (nextStep x y n)]) (NextPoints x y))
        as [IHf IHp].
      split.
      * intros f Hf. apply IHf in Hf as [Hf | (p & Hp & Hpr & ->)].
        -- apply in_app_or in Hf as [Hf | [<- | []]]; [left; assumption|].
           right. exists (x, y). cbn [fst snd]. auto using in_eq.
        -- right. exists p. auto using in_cons.
      * right. destruct IHp as [E' | (p & Hp & Hpr & E')].
        -- exists (x, y). cbn [fst snd]. auto using in_eq.
        -- exists p. auto using in_cons.
    + assert (E : for_body x0 y0 n (t, nt) (x, y) = (t, nt))
        by (unfold for_body; rewrite Hr; reflexivity).
      rewrite E.
      destruct (IH t nt) as [IHf IHp].
      split.
      * intros f Hf. apply IHf in Hf as [Hf | (p & Hp & Hpr & ->)];
          [left; assumption|].
        right. exists p. auto using in_cons.
      * destruct IHp as [E' | (p & Hp & Hpr & E')]; [left; assumption|].
        right. exists p. auto using in_cons.
Qed.

Lemma while_body_spec x0 y0 s :
  (forall f, In f (transitions_optimised (while_body x0 y0 s)) ->
     In f (transitions_optimised s) \/
     exists p, In p (next_transitions s) /\
       in_range (fst p) 0 (x0 + y0 + 1)
         && in_range (snd p) 0 (x0 + y0 + 1) = true /\
       f = fst (nextStep (fst p) (snd p) (step_n s))) /\
  (next_transitions (while_body x0 y0 s) = [] \/
   exists p, In p (next_transitions s) /\
     in_range (fst p) 0 (x0 + y0 + 1)
       && in_range (snd p) 0 (x0 + y0 + 1) = true /\
     next_transitions (while_body x0 y0 s) = NextPoints (fst p) (snd p)).
Proof.
  pose proof (for_loop_spec x0 y0 (step_n s) (next_transitions s)
                (transitions_optimised s) []) as H.
  cbn zeta in H. unfold while_body.
  destruct (fold_left _ _ _) as [t nt]. exact H.
Qed.

(** Every implication the loop has collected is the one of a
    configuration of the square, at a step the loop has been through. *)
Lemma sweep_transitions_from_square x0 y0 n0 s :
  sweep_reaches x0 y0 n0 s ->
  0 <= step_n s <= Z.max 0 (n0 + 1) /\
  forall f, In f (transitions_optimised s) ->
    exists x y n,
      0 <= x <= x0 + y0 /\ 0 <= y <= x0 + y0 /\ 0 <= n <= n0 /\
      f = fst (nextStep x y n).
Proof.
  induction 1 as [|s Hs [IHn IHf] Hc].
  - simpl. split; [lia | intros f []].
  - apply while_cond_lt in Hc. rewrite while_body_step_n.
    split; [lia|].
    intros f Hf.
    apply (proj1 (while_body_spec x0 y0 s)) in Hf
      as [Hf | ([x y] & _ & Hr & ->)]; [auto|].
    cbn [fst snd] in *.
    apply andb_true_iff in Hr as [Hx Hy].
    apply in_range_spec in Hx, Hy.
    exists x, y, (step_n s). repeat split; lia.
Qed.

Lemma unpruned_In x0 y0 n0 x y n :
  0 <= x <= x0 + y0 -> 0 <= y <= x0 + y0 -> 0 <= n <= n0 ->
  forall fs, allTransitions_unpruned x0 y0 n0 = And fs ->
  In (fst (nextStep x y n)) fs.
Proof.
  intros Hx Hy Hn fs [= <-].
  apply in_flat_map. exists n. split; [apply In_range; lia|].
  apply in_flat_map. exists x. split; [apply In_range; lia|].
  apply in_map_iff. exists y. split; [reflexivity | apply In_range; lia].
Qed.

(** The conjuncts of [allTransitions] are among those of the variant
    without pruning, so every model of the variant is a model of the
    sweep's conjunction. *)
Lemma unpruned_entails_allTransitions x0 y0 n0 :
  (exists fs gs,
      allTransitions x0 y0 n0 = And fs /\
      allTransitions_unpruned x0 y0 n0 = And gs /\
      incl fs gs) /\
  (forall v,
      eval v (allTransitions_unpruned x0 y0 n0) = true ->
      eval v (allTransitions x0 y0 n0) = true).
Proof.
  assert (Hincl : forall f,
    In f (transitions_optimised
            (while_loop x0 y0 n0 (Sweep [] [(x0, y0)] 0))) ->
    forall gs, allTransitions_unpruned x0 y0 n0 = And gs -> In f gs).
  { intros f Hf gs Hgs.
    destruct (while_loop_reaches x0 y0 n0 _ (reaches_start x0 y0 n0))
      as [Hr _].
    apply sweep_transitions_from_square in Hr as [_ Hr].
    destruct (Hr f Hf) as (x & y & n & Hx & Hy & Hn & ->).
    eapply unpruned_In; eauto. }
  split.
  - eexists _, _. split; [reflexivity|]. split; [reflexivity|].
    intros f Hf. eapply Hincl; [exact Hf | reflexivity].
  - intros v Hv. unfold allTransitions. apply eval_And. intros f Hf.
    unfold allTransitions_unpruned in Hv. rewrite eval_And in Hv.
    apply Hv. eapply Hincl; [exact Hf | reflexivity].
Qed.

(** ** The configurations the sweep visits *)

Lemma sweep_configurations_bounded x0 y0 n0 s :
  sweep_reaches x0 y0 n0 s ->
  forall p, In p (next_transitions s) ->
    p = (x0, y0) \/
    (0 <= fst p /\ 0 <= snd p /\ fst p + snd p <= x0 + y0).
Proof.
  induction 1 as [|s Hs IH Hc]; intros p Hp.
  - destruct Hp as [<- | []]. left. reflexivity.
  - right.
    destruct (proj2 (while_body_spec x0 y0 s)) as [E | (q & Hq & Hr & E)];
      rewrite E in Hp; [destruct Hp|].
    apply andb_true_iff in Hr as [Hqx Hqy].
    apply in_range_spec in Hqx, Hqy.
    assert (Hsum : fst q + snd q <= x0 + y0)
      by (destruct (IH q Hq) as [-> | ?]; simpl; lia).
    apply NextPoints_In in Hp as [[H1 ->] | [H2 ->]]; cbn [fst snd].
    + apply rule1_iff in H1. lia.
    + apply rule2_iff in H2. lia.
Qed.

Lemma NextPoints_in_square d x y q :
  0 <= x -> 0 <= y -> x + y <= d ->
  In q (NextPoints x y) -> in_square d q.
Proof.
  intros Hx Hy Hd Hq. unfold in_square.
  apply NextPoints_In in Hq as [[H1 ->] | [H2 ->]]; cbn [fst snd].
  - apply rule1_iff in H1. lia.
  - apply rule2_iff in H2. lia.
Qed.

(** C8, amended. For inputs with x0+y0 >= 1, every configuration the
    sweep expands, and every next configuration [nextStep] returns for it,
    has both components in [0, x0+y0]; and with counts x0 and y0 that
    are not negative the range test lets every configuration of the
    loop's list through. *)
Theorem sweep_stays_in_range x0 y0 n0 :
  1 <= x0 + y0 ->
  (forall p n, expanded x0 y0 n0 p n ->
     in_square (x0 + y0) p /\
     forall q, In q (snd (nextStep (fst p) (snd p) n)) ->
       in_square (x0 + y0) q) /\
  (0 <= x0 -> 0 <= y0 ->
   forall s p, sweep_reaches x0 y0 n0 s -> In p (next_transitions s) ->
     in_range (fst p) 0 (x0 + y0 + 1)
       && in_range (snd p) 0 (x0 + y0 + 1) = true).
Proof.
  intros _. split.
  - intros p n (s & Hs & _ & _ & Hp & Hr).
    apply andb_true_iff in Hr as [Hpx Hpy].
    apply in_range_spec in Hpx, Hpy.
    assert (Hsum : fst p + snd p <= x0 + y0)
      by (destruct (sweep_configurations_bounded _ _ _ _ Hs p Hp)
            as [-> | ?]; simpl; lia).
    split; [unfold in_square; lia|].
    intros q Hq. cbn [nextStep snd] in Hq.
    eapply NextPoints_in_square; [| | |exact Hq]; lia.
  - intros Hx0 Hy0 s p Hs Hp.
    assert (Hb : 0 <= fst p /\ 0 <= snd p /\ fst p + snd p <= x0 + y0)
      by (destruct (sweep_configurations_bounded _ _ _ _ Hs p Hp)
            as [-> | ?]; simpl; lia).
    apply andb_true_iff. split; apply in_range_spec; lia.
Qed.

Lemma sweep_stays_in_range_witness :
  in_range 2 0 (2 + 2 + 1) && in_range 2 0 (2 + 2 + 1) = true.
Proof.
  refine (proj2 (sweep_stays_in_range 2 2 3 _) _ _
            (Sweep [] [(2, 2)] 0) (2, 2) _ _);
    [lia | lia | lia | apply reaches_start | simpl; auto].
Defined.

(** With a negative count the range test does discard the start, and
    the sweep expands nothing. *)
Lemma sweep_discards_negative_start n0 :
  0 <= n0 -> allTransitions (-1) 2 n0 = And [].
Proof.
  intros Hn. unfold allTransitions.
  rewrite while_loop_true
    by (unfold while_cond; cbn [next_transitions step_n];
        apply Z.ltb_lt; lia).
  rewrite while_loop_false by reflexivity.
  reflexivity.
Qed.

(** ** Models given by the count variables they make true *)

Lemma only_spec names name :
  only names name = true <-> In name names.
Proof.
  unfold only. rewrite existsb_exists. split.
  - intros (s & Hs & E). apply String.eqb_eq in E. subst. assumption.
  - intros H. exists name. split; [assumption | apply String.eqb_refl].
Qed.

Lemma model_of_spec beans c val step :
  eval (model_of beans) (bean c val step) = true <->
  In (c, val, step) beans.
Proof.
  change (eval (model_of beans) (bean c val step))
    with (model_of beans (var_name (bean c val step))).
  unfold model_of. rewrite only_spec, in_map_iff. split.
  - intros ([[c' val'] step'] & E & Hin).
    assert (E' : bean c' val' step' = bean c val step)
      by (unfold bean in *; simpl in E; f_equal; exact E).
    apply bean_inj in E' as (-> & -> & ->). assumption.
  - intros Hin. exists (c, val, step). split; [reflexivity | assumption].
Qed.

Lemma uniqueVal_model_of beans x0 y0 n :
  functional beans -> eval (model_of beans) (uniqueVal x0 y0 n) = true.
Proof.
  intros Hf. unfold uniqueVal. apply eval_And. intros f Hin.
  assert (H : exists c a b, b > a /\
            f = Implies (bean c a n) (Not (bean c b n))).
  { apply in_app_or in Hin as [Hin | Hin];
      apply in_flat_map in Hin as (a & _ & Hin);
      apply in_map_iff in Hin as (b & <- & Hin);
      apply filter_In in Hin as [_ Hgt]; apply Z.gtb_lt in Hgt;
      [exists black | exists white]; exists a, b; split; auto; lia. }
  destruct H as (c & a & b & Hgt & ->).
  apply eval_Implies. intros Ha. cbn [eval].
  destruct (eval (model_of beans) (bean c b n)) eqn:Hb; [|reflexivity].
  apply model_of_spec in Ha, Hb.
  specialize (Hf c a b n Ha Hb). lia.
Qed.

Lemma uniqueVals_model_of beans x0 y0 n0 :
  functional beans -> eval (model_of beans) (uniqueVals x0 y0 n0) = true.
Proof.
  intros Hf. unfold uniqueVals. apply eval_And. intros f Hin.
  apply in_map_iff in Hin as (i & <- & _).
  apply uniqueVal_model_of. exact Hf.
Qed.

(** ** The sweep, round by round *)

Lemma sweep_after_step_n x0 y0 k :
  step_n (sweep_after x0 y0 k) = Z.of_nat k.
Proof.
  induction k as [|k IH]; [reflexivity|].
  cbn [sweep_after]. rewrite while_body_step_n, IH. lia.
Qed.

(** The loop is deterministic: the state it is in is fixed by the
    number of rounds it has run, which is its step counter. *)
Lemma sweep_reaches_after x0 y0 n0 s :
  sweep_reaches x0 y0 n0 s ->
  s = sweep_after x0 y0 (Z.to_nat (step_n s)).
Proof.
  induction 1 as [|s Hs IH Hc].
  - reflexivity.
  - rewrite while_body_step_n.
    assert (Hn : 0 <= step_n s).
    { rewrite IH, sweep_after_step_n. lia. }
    replace (Z.to_nat (step_n s + 1)) with (S (Z.to_nat (step_n s))) by lia.
    cbn [sweep_after]. rewrite <- IH. reflexivity.
Qed.

(** The tuple assignment in the inner [for] keeps the successors of the
    last configuration only.  From (1,4) the sweep expands (2,2) and
    (0,4) at step 1; (3,0) is a next configuration of (2,2), yet the
    list for step 2 holds the successors of (0,4) alone and (3,0) is
    not expanded. *)
Lemma sweep_drops_successor :
  expanded 1 4 2 (2, 2) 1 /\
  In (3, 0) (snd (nextStep 2 2 1)) /\
  ~ expanded 1 4 2 (3, 0) 2.
Proof.
  split; [|split].
  - exists (while_body 1 4 (Sweep [] [(1, 4)] 0)).
    split; [apply reaches_round; [apply reaches_start | reflexivity]|].
    repeat split. vm_compute. auto.
  - vm_compute. auto.
  - intros (s & Hs & _ & Hn & Hin & _).
    apply sweep_reaches_after in Hs. rewrite Hn in Hs. subst s.
    vm_compute in Hin. destruct Hin as [E | []]. discriminate.
Qed.

(** ** The input (1,0) *)

Lemma allTransitions_1_0 n :
  0 <= n -> allTransitions 1 0 n = And [fst (nextStep 1 0 0)].
Proof.
  intros Hn. unfold allTransitions.
  rewrite while_loop_true
    by (unfold while_cond; cbn [next_transitions step_n];
        apply Z.ltb_lt; lia).
  rewrite while_loop_false by reflexivity.
  reflexivity.
Qed.

(** At every bound n >= 1 the formula of the input (1,0) has a model:
    (1,0) at step 0 and (0,1) at step n. *)
Lemma Gries_1_0_model n :
  1 <= n ->
  eval (model_of [(black, 1, 0); (white, 0, 0); (black, 0, n); (white, 1, n)])
       (And [init 1 0; final 0 1 n; allTransitions 1 0 n; uniqueVals 1 0 n])
  = true.
Proof.
  intros Hn. apply eval_And. intros f Hf.
  destruct Hf as [<- | [<- | [<- | [<- | []]]]].
  - apply eval_And2. split; apply model_of_spec; simpl; auto.
  - apply eval_And2. split; apply model_of_spec; simpl; auto 6.
  - rewrite allTransitions_1_0 by lia. apply eval_And.
    intros f [<- | []].
    apply self_loop_holds. reflexivity.
  - apply uniqueVals_model_of. intros c a b step Ha Hb.
    simpl in Ha, Hb.
    repeat match goal with
           | H : _ \/ _ |- _ => destruct H
           | H : False |- _ => destruct H
           | H : (_, _, _) = (_, _, _) |- _ => injection H as ? ? ?
           end; subst; try discriminate; try reflexivity; lia.
Qed.

(** ** Verdicts *)

(** At bound 0 the initial and the final state predicate both speak
    of step 0, and the uniqueness constraint of that step rules out
    every start other than (0,1). *)
Lemma Gries_bound_0_unsat x y f :
  0 <= x -> 0 <= y -> (x, y) <> (0, 1) ->
  Gries x y 0 = Ok f -> ~ satisfiable f.
Proof.
  intros Hx Hy Hne HG [v Hv].
  pose proof (Gries_Ok_inv _ _ _ _ HG) as (Hxy & _ & _).
  destruct (Gries_model _ _ _ _ _ HG Hv) as (Hi & Hf & _ & Hu).
  apply uniqueVals_step with (i := 0) in Hu; [|lia].
  apply eval_And2 in Hi as [Hib Hiw], Hf as [Hfb Hfw].
  apply Hne. f_equal.
  - apply (uniqueVal_at_most_one v x y 0 black x 0 Hu); auto; lia.
  - apply (uniqueVal_at_most_one v x y 0 white y 1 Hu); auto; lia.
Qed.

(** C1. For the input (1,0) the formula of bound 0 has no model, but
    the formula of every bound n >= 1 has one: the implication of the
    fixed point (1,0) is a tautology on step 0 and the sweep stops
    there, so nothing links step 0 to step n and the model may hold
    (1,0) at step 0 and (0,1) at step n. *)
Theorem Gries_1_0_verdicts :
  (forall f, Gries 1 0 0 = Ok f -> ~ satisfiable f) /\
  (forall n, 1 <= n -> exists f, Gries 1 0 n = Ok f /\ satisfiable f).
Proof.
  split.
  - intros f. apply Gries_bound_0_unsat; [lia | lia | discriminate].
  - intros n Hn. eexists. split; [apply Gries_Ok; lia|].
    eexists. apply Gries_1_0_model. exact Hn.
Qed.

Lemma Gries_1_0_verdicts_witness :
  exists f, Gries 1 0 1 = Ok f /\ satisfiable f.
Proof.
  apply (proj2 Gries_1_0_verdicts 1). lia.
Defined.

(** ** The uniqueness invariant *)

Lemma config_at_exactly_one v d n p c :
  0 <= count c p <= d -> config_at v d n p -> exactly_one_count v d c n.
Proof.
  intros Hc H. exists (count c p). split; [assumption|]. split.
  - apply H; auto.
  - intros val' Hr Hv. apply H; assumption.
Qed.

(** In every model of the formula of [Gries x y n], at
    every step of [0, n] each colour has at most one true count
    variable with a value in [0, x+y]; at the last step exactly one is
    true, that of (0,1), and so at step 0, that of (x,y), when x and y
    are not negative. *)
Lemma Gries_counts_at_most_one x y n f v :
  Gries x y n = Ok f -> eval v f = true ->
  (forall step c, 0 <= step <= n -> at_most_one_count v (x + y) c step) /\
  (config_at v (x + y) n (0, 1) /\
   forall c, exactly_one_count v (x + y) c n) /\
  (0 <= x -> 0 <= y ->
   config_at v (x + y) 0 (x, y) /\
   forall c, exactly_one_count v (x + y) c 0).
Proof.
  intros HG Hv.
  pose proof (Gries_Ok_inv _ _ _ _ HG) as (Hxy & Hn & _).
  destruct (Gries_model _ _ _ _ _ HG Hv) as (Hi & Hf & _ & Hu).
  split; [|split].
  - intros step c Hs a b Ha Hb Hva Hvb.
    eapply uniqueVal_at_most_one; eauto.
    eapply uniqueVals_step; eauto.
  - assert (Hc : config_at v (x + y) n (0, 1)).
    { apply state_fixes_config; [|exact Hf|lia|lia].
      eapply uniqueVals_step; eauto. lia. }
    split; [exact Hc|].
    intros c. eapply config_at_exactly_one; [|exact Hc].
    destruct c; simpl; lia.
  - intros Hx Hy.
    assert (Hc : config_at v (x + y) 0 (x, y)).
    { apply state_fixes_config; [|exact Hi|lia|lia].
      eapply uniqueVals_step; eauto. lia. }
    split; [exact Hc|].
    intros c. eapply config_at_exactly_one; [|exact Hc].
    destruct c; simpl; lia.
Qed.

(** ** The default input *)

Lemma Gries_10_10_19_model :
  eval (model_of trace_10_10)
       (And [init 10 10; final 0 1 19;
             allTransitions 10 10 19; uniqueVals 10 10 19]) = true.
Proof. vm_compute. reflexivity. Qed.

(** ** [uniqueVal] and [uniqueVals]: what their models are *)

Lemma uniqueVal_In_inv x0 y0 n f fs :
  uniqueVal x0 y0 n = And fs -> In f fs ->
  exists c a b,
    0 <= a /\ a < b /\ b <= x0 + y0 /\
    f = Implies (bean c a n) (Not (bean c b n)).
Proof.
  intros [= <-] Hin.
  apply in_app_or in Hin as [Hin | Hin];
    apply in_flat_map in Hin as (a & Ha & Hin);
    apply in_map_iff in Hin as (b & <- & Hin);
    apply filter_In in Hin as [Hb Hgt]; apply Z.gtb_lt in Hgt;
    apply In_range in Ha, Hb;
    [exists black | exists white]; exists a, b; repeat split; auto; lia.
Qed.

Lemma at_most_one_satisfies_uniqueVal v x0 y0 n :
  (forall c, at_most_one_count v (x0 + y0) c n) ->
  eval v (uniqueVal x0 y0 n) = true.
Proof.
  intros H.
  destruct (uniqueVal x0 y0 n) as [| fs | | |] eqn:E; try discriminate.
  apply eval_And. intros f Hf.
  destruct (uniqueVal_In_inv _ _ _ _ _ E Hf)
    as (c & a & b & Ha & Hab & Hb & ->).
  apply eval_Implies. intros Hva. cbn [eval].
  destruct (eval v (bean c b n)) eqn:Hvb; [|reflexivity].
  assert (a = b) by (apply (H c a b); auto; lia). lia.
Qed.

(** X1. A valuation satisfies [uniqueVal x0 y0 n] exactly when, at step
    [n], each colour has at most one true count variable with a value
    in [0, x0+y0]. *)
Theorem uniqueVal_iff_at_most_one v x0 y0 n :
  eval v (uniqueVal x0 y0 n) = true <->
  forall c, at_most_one_count v (x0 + y0) c n.
Proof.
  split.
  - intros Hu c a b Ha Hb Hva Hvb.
    eapply uniqueVal_at_most_one; eauto.
  - apply at_most_one_satisfies_uniqueVal.
Qed.

(** X2. A valuation satisfies [uniqueVals x0 y0 n0] exactly when the
    at-most-one property holds for each colour at every step of
    [0, n0]; the steps after [n0] are left free. *)
Theorem uniqueVals_iff_at_most_one v x0 y0 n0 :
  eval v (uniqueVals x0 y0 n0) = true <->
  forall i c, 0 <= i <= n0 -> at_most_one_count v (x0 + y0) c i.
Proof.
  split.
  - intros Hu i c Hi a b Ha Hb Hva Hvb.
    eapply uniqueVal_at_most_one; eauto.
    eapply uniqueVals_step; eauto.
  - intros H. unfold uniqueVals. apply eval_And. intros f Hf.
    apply in_map_iff in Hf as (i & <- & Hi). apply In_range in Hi.
    apply at_most_one_satisfies_uniqueVal. intros c. apply H. lia.
Qed.

(** The number of implications of [uniqueVal]. *)
Lemma filter_gt_length (g : Z -> formula) m a :
  List.length
    (map g (filter (fun z => z >? 0 + Z.of_nat a)
              (map (fun i => 0 + Z.of_nat i) (seq 0 m))))
  = (m - S a)%nat.
Proof.
  rewrite List.length_map. induction m as [|m IH]; [reflexivity|].
  rewrite seq_S, map_app, filter_app, List.length_app, IH.
  cbn [map filter Nat.add].
  destruct (Z.gtb_spec (0 + Z.of_nat m) (0 + Z.of_nat a));
    cbn [List.length]; lia.
Qed.

Lemma unique_pairs_length (g : Z -> Z -> formula) m k :
  (k <= m)%nat ->
  2 * Z.of_nat
        (List.length
           (flat_map (fun x =>
              map (g x) (filter (fun z => z >? x)
                           (map (fun i => 0 + Z.of_nat i) (seq 0 m))))
              (map (fun i => 0 + Z.of_nat i) (seq 0 k))))
  + Z.of_nat k * Z.of_nat k + Z.of_nat k = 2 * Z.of_nat k * Z.of_nat m.
Proof.
  induction k as [|k IH]; intros Hk; [simpl; lia|].
  rewrite seq_S, map_app, flat_map_app, List.length_app.
  cbn [map flat_map Nat.add]. rewrite app_nil_r, filter_gt_length.
  specialize (IH ltac:(lia)). nia.
Qed.

(** X3. For x0+y0 >= 0, [uniqueVal x0 y0 n] is a conjunction of
    (x0+y0)*(x0+y0+1) implications: one for each colour and each pair
    of values v < v' of [0, x0+y0]. *)
Theorem uniqueVal_size_quadratic x0 y0 n :
  0 <= x0 + y0 ->
  exists fs, uniqueVal x0 y0 n = And fs /\
             Z.of_nat (List.length fs) = (x0 + y0) * (x0 + y0 + 1).
Proof.
  intros Hd. eexists. split; [reflexivity|].
  rewrite List.length_app. unfold range.
  set (m := Z.to_nat (x0 + y0 + 1 - 0)).
  pose proof (unique_pairs_length
                (fun x x1 => Implies (bean black x n) (Not (bean black x1 n)))
                m m (le_n m)) as Hb.
  pose proof (unique_pairs_length
                (fun y y1 => Implies (bean white y n) (Not (bean white y1 n)))
                m m (le_n m)) as Hw.
  assert (Hm : Z.of_nat m = x0 + y0 + 1) by lia.
  nia.
Qed.

Lemma uniqueVal_size_quadratic_witness :
  exists fs, uniqueVal 10 10 3 = And fs /\
             Z.of_nat (List.length fs) = (10 + 10) * (10 + 10 + 1).
Proof. apply (uniqueVal_size_quadratic 10 10 3). lia. Defined.

(** ** [nextStep]: dead ends and successors *)

Lemma NextConfs_In x y n f :
  In f (NextConfs x y n) <->
  (rule1 x y = true /\
   f = And [bean black (x + 1) (n + 1); bean white (y - 2) (n + 1)]) \/
  (rule2 x y = true /\
   f = And [bean black (x - 1) (n + 1); bean white y (n + 1)]) \/
  (rule3 x y = true /\ f = And [bean black x n; bean white y n]).
Proof.
  unfold NextConfs.
  destruct (rule1 x y), (rule2 x y), (rule3 x y); simpl;
    intuition congruence.
Qed.

Lemma some_rule_applies x y :
  0 <= x -> 0 <= y -> 1 <= x + y ->
  rule1 x y = true \/ rule2 x y = true \/ rule3 x y = true.
Proof.
  intros Hx Hy Hxy.
  destruct (Z_le_gt_dec 2 y); [left; apply rule1_iff; lia|].
  destruct (Z_le_gt_dec 2 x); [right; left; apply rule2_iff; lia|].
  destruct (Z.eq_dec x 1), (Z.eq_dec y 1); subst.
  - right. left. reflexivity.
  - right. right. apply rule3_iff. left. f_equal. lia.
  - right. right. apply rule3_iff. right. f_equal. lia.
  - lia.
Qed.

Lemma NextConfs_nonempty x y n :
  0 <= x -> 0 <= y -> 1 <= x + y -> NextConfs x y n <> [].
Proof.
  intros Hx Hy Hxy E.
  assert (H : exists f, In f (NextConfs x y n)).
  { destruct (some_rule_applies x y Hx Hy Hxy) as [H | [H | H]];
      eexists; apply NextConfs_In; eauto. }
  destruct H as [f Hf]. rewrite E in Hf. destruct Hf.
Qed.

(** X4. Among the configurations with non-negative counts, (0,0) is
    the only one for which [nextStep] collects no disjunct; there the
    implication it returns holds exactly in the valuations that do not
    put the configuration (0,0) at step [n]. *)
Theorem nextStep_dead_end_only_at_origin x y n :
  0 <= x -> 0 <= y ->
  (NextConfs x y n = [] <-> (x, y) = (0, 0)) /\
  (forall v,
      eval v (fst (nextStep 0 0 n)) = true <->
      ~ (eval v (bean black 0 n) = true /\ eval v (bean white 0 n) = true)).
Proof.
  intros Hx Hy. split.
  - split.
    + intros E. destruct (Z_le_gt_dec 1 (x + y)) as [H | H].
      * exfalso. exact (NextConfs_nonempty x y n Hx Hy H E).
      * f_equal; lia.
    + intros [= -> ->]. reflexivity.
  - intros v.
    change (fst (nextStep 0 0 n))
      with (Implies (And [bean black 0 n; bean white 0 n]) (Or [])).
    rewrite eval_Implies, eval_And2. cbn [eval existsb].
    split.
    + intros H Hb. specialize (H Hb). discriminate.
    + intros H Hb. contradiction.
Qed.

Lemma nextStep_dead_end_only_at_origin_witness :
  NextConfs 0 0 4 = [] <-> (0, 0) = (0, 0).
Proof.
  apply (proj1 (nextStep_dead_end_only_at_origin 0 0 4
                  ltac:(lia) ltac:(lia))).
Defined.

(** X5. In a valuation that satisfies the implication of
    [nextStep x y n] and puts the configuration (x,y) at step [n],
    where (x,y) is not one of the two fixed points of rule 3, one of
    the next configurations [nextStep] returns is put at step [n+1]. *)
Theorem nextStep_forces_successor v x y n :
  eval v (fst (nextStep x y n)) = true ->
  eval v (bean black x n) = true -> eval v (bean white y n) = true ->
  rule3 x y = false ->
  exists p, In p (snd (nextStep x y n)) /\
    eval v (bean black (fst p) (n + 1)) = true /\
    eval v (bean white (snd p) (n + 1)) = true.
Proof.
  intros Hi Hb Hw H3. cbn [nextStep fst snd] in *.
  rewrite eval_Implies in Hi.
  assert (Hp : eval v (And [bean black x n; bean white y n]) = true)
    by (apply eval_And2; auto).
  apply Hi in Hp. apply eval_Or in Hp as (f & Hf & Hv).
  apply NextConfs_In in Hf as [[H1 ->] | [[H2 ->] | [H3' _]]].
  - exists (x + 1, y - 2). apply eval_And2 in Hv as [? ?].
    split; [apply NextPoints_In; auto | auto].
  - exists (x - 1, y). apply eval_And2 in Hv as [? ?].
    split; [apply NextPoints_In; auto | auto].
  - congruence.
Qed.

Lemma nextStep_forces_successor_witness :
  exists p, In p (snd (nextStep 1 2 0)) /\
    eval (model_of [(black, 1, 0); (white, 2, 0);
                    (black, 2, 1); (white, 0, 1)])
         (bean black (fst p) (0 + 1)) = true /\
    eval (model_of [(black, 1, 0); (white, 2, 0);
                    (black, 2, 1); (white, 0, 1)])
         (bean white (snd p) (0 + 1)) = true.
Proof.
  apply (nextStep_forces_successor
           (model_of [(black, 1, 0); (white, 2, 0);
                      (black, 2, 1); (white, 0, 1)]) 1 2 0);
    vm_compute; reflexivity.
Defined.

(** ** The sweep: totals, the origin, the size of the conjunction *)

Lemma sweep_total x0 y0 n0 s :
  sweep_reaches x0 y0 n0 s ->
  forall p, In p (next_transitions s) ->
    fst p + snd p = x0 + y0 - step_n s.
Proof.
  induction 1 as [|s Hs IH Hc]; intros p Hp.
  - destruct Hp as [<- | []]. simpl. lia.
  - rewrite while_body_step_n.
    destruct (proj2 (while_body_spec x0 y0 s)) as [E | (q & Hq & _ & E)];
      rewrite E in Hp; [destruct Hp|].
    specialize (IH q Hq).
    apply NextPoints_In in Hp as [[_ ->] | [_ ->]]; cbn [fst snd]; lia.
Qed.

Lemma sweep_origin_free x0 y0 n0 s :
  1 <= x0 + y0 ->
  sweep_reaches x0 y0 n0 s -> ~ In (0, 0) (next_transitions s).
Proof.
  intros Hxy Hs Hin. destruct Hs as [|s Hs Hc].
  - destruct Hin as [[= -> ->] | []]. lia.
  - destruct (proj2 (while_body_spec x0 y0 s)) as [E | (q & Hq & Hr & E)];
      rewrite E in Hin; [destruct Hin|].
    apply andb_true_iff in Hr as [Hqx _]. apply in_range_spec in Hqx.
    apply NextPoints_In in Hin as [[_ [= Hx Hy]] | [H2 [= Hx Hy]]].
    + lia.
    + apply rule2_iff in H2. lia.
Qed.

(** Every implication the loop has collected is that of a configuration
    it has expanded, at the step it expanded it. *)
Lemma sweep_transitions_expanded x0 y0 n0 s :
  sweep_reaches x0 y0 n0 s ->
  forall f, In f (transitions_optimised s) ->
    exists p n, expanded x0 y0 n0 p n /\
                f = fst (nextStep (fst p) (snd p) n).
Proof.
  induction 1 as [|s Hs IH Hc]; intros f Hf.
  - destruct Hf.
  - apply (proj1 (while_body_spec x0 y0 s)) in Hf
      as [Hf | (p & Hp & Hr & ->)]; [auto|].
    exists p, (step_n s). split; [|reflexivity].
    exists s. auto.
Qed.

Lemma expanded_spec x0 y0 n0 p n :
  expanded x0 y0 n0 p n ->
  0 <= fst p /\ 0 <= snd p /\ fst p + snd p = x0 + y0 - n /\
  0 <= n <= n0 /\ (1 <= x0 + y0 -> p <> (0, 0)).
Proof.
  intros (s & Hs & Hc & <- & Hp & Hr).
  apply andb_true_iff in Hr as [Hx Hy]. apply in_range_spec in Hx, Hy.
  pose proof (sweep_total _ _ _ _ Hs p Hp) as Ht.
  pose proof (sweep_transitions_from_square _ _ _ _ Hs) as [Hn _].
  apply while_cond_lt in Hc.
  repeat split; try lia.
  intros Hxy ->. exact (sweep_origin_free _ _ _ _ Hxy Hs Hp).
Qed.

(** X6. Every conjunct of [allTransitions x0 y0 n0] is the implication
    of a configuration (x,y) with non-negative counts at a step n of
    [0, n0], and the total x+y is x0+y0-n: the sweep loses one bean per
    step. *)
Theorem allTransitions_totals x0 y0 n0 fs f :
  allTransitions x0 y0 n0 = And fs -> In f fs ->
  exists x y n,
    f = fst (nextStep x y n) /\
    0 <= x /\ 0 <= y /\ 0 <= n <= n0 /\ x + y = x0 + y0 - n.
Proof.
  intros [= <-] Hf.
  destruct (while_loop_reaches x0 y0 n0 _ (reaches_start x0 y0 n0))
    as [Hr _].
  destruct (sweep_transitions_expanded _ _ _ _ Hr f Hf)
    as ([x y] & n & He & ->).
  apply expanded_spec in He as (Hx & Hy & Ht & Hn & _).
  exists x, y, n. cbn [fst snd] in *. auto.
Qed.

Lemma allTransitions_totals_witness :
  exists x y n,
    fst (nextStep 1 2 2) = fst (nextStep x y n) /\
    0 <= x /\ 0 <= y /\ 0 <= n <= 2 /\ x + y = 1 + 4 - n.
Proof.
  eapply (allTransitions_totals 1 4 2); [reflexivity|].
  vm_compute. auto 6.
Defined.

(** X7. For an input with x0+y0 >= 1, no conjunct of [allTransitions]
    has the empty disjunction as conclusion: the sweep never expands
    (0,0), the one configuration without a disjunct. *)
Theorem allTransitions_no_empty_disjunction x0 y0 n0 fs f :
  1 <= x0 + y0 ->
  allTransitions x0 y0 n0 = And fs -> In f fs ->
  exists x y n,
    f = Implies (And [bean black x n; bean white y n])
                (Or (NextConfs x y n)) /\
    (x, y) <> (0, 0) /\ NextConfs x y n <> [].
Proof.
  intros Hxy [= <-] Hf.
  destruct (while_loop_reaches x0 y0 n0 _ (reaches_start x0 y0 n0))
    as [Hr _].
  destruct (sweep_transitions_expanded _ _ _ _ Hr f Hf)
    as ([x y] & n & He & ->).
  apply expanded_spec in He as (Hx & Hy & Ht & Hn & H0).
  cbn [fst snd] in *. specialize (H0 Hxy).
  exists x, y, n. split; [reflexivity|]. split; [exact H0|].
  apply NextConfs_nonempty; try assumption.
  destruct (Z_le_gt_dec 1 (x + y)); [assumption|].
  exfalso. apply H0. f_equal; lia.
Qed.

Lemma allTransitions_no_empty_disjunction_witness :
  exists x y n,
    fst (nextStep 0 4 1) =
      Implies (And [bean black x n; bean white y n])
              (Or (NextConfs x y n)) /\
    (x, y) <> (0, 0) /\ NextConfs x y n <> [].
Proof.
  eapply (allTransitions_no_empty_disjunction 1 4 2); [lia | reflexivity|].
  vm_compute. auto 6.
Defined.

Lemma NextPoints_length x y : (List.length (NextPoints x y) <= 2)%nat.
Proof.
  unfold NextPoints. destruct (rule1 x y), (rule2 x y); simpl; lia.
Qed.

Lemma for_loop_length x0 y0 n l :
  forall t nt,
    (List.length (fst (fold_left (for_body x0 y0 n) l (t, nt)))
     <= List.length t + List.length l)%nat.
Proof.
  induction l as [|[x y] l IH]; intros t nt; cbn [fold_left].
  - simpl. lia.
  - unfold for_body at 2.
    destruct (in_range x 0 (x0 + y0 + 1) && in_range y 0 (x0 + y0 + 1)).
    + cbn [nextStep fst]. etransitivity; [apply IH|].
      rewrite List.length_app. simpl. lia.
    + etransitivity; [apply IH|]. simpl. lia.
Qed.

Lemma while_body_length x0 y0 s :
  (List.length (transitions_optimised (while_body x0 y0 s))
   <= List.length (transitions_optimised s)
      + List.length (next_transitions s))%nat /\
  (List.length (next_transitions (while_body x0 y0 s)) <= 2)%nat.
Proof.
  split.
  - pose proof (for_loop_length x0 y0 (step_n s) (next_transitions s)
                  (transitions_optimised s) []) as H.
    unfold while_body. destruct (fold_left _ _ _) as [t nt]. exact H.
  - destruct (proj2 (while_body_spec x0 y0 s)) as [E | (q & _ & _ & E)];
      rewrite E; [simpl; lia | apply NextPoints_length].
Qed.

Lemma sweep_size_invariant x0 y0 n0 s :
  sweep_reaches x0 y0 n0 s ->
  (step_n s = 0 /\ transitions_optimised s = [] /\
   List.length (next_transitions s) = 1%nat) \/
  (1 <= step_n s /\ (List.length (next_transitions s) <= 2)%nat /\
   Z.of_nat (List.length (transitions_optimised s)) <= 2 * step_n s - 1).
Proof.
  induction 1 as [|s Hs IH Hc].
  - left. auto.
  - right. rewrite while_body_step_n.
    destruct (while_body_length x0 y0 s) as [Ht Hn].
    destruct IH as [(E0 & Et & El) | (H1 & Hl & Hb)].
    + rewrite Et, El in Ht. simpl in Ht. repeat split; lia.
    + repeat split; lia.
Qed.

(** X8. With a bound n0 >= 0 the conjunction returned by
    [allTransitions] has at most 2*n0+1 conjuncts: one implication for
    the start and at most two for each later step. *)
Theorem allTransitions_size_linear x0 y0 n0 :
  0 <= n0 ->
  exists fs, allTransitions x0 y0 n0 = And fs /\
             Z.of_nat (List.length fs) <= 2 * n0 + 1.
Proof.
  intros Hn. eexists. split; [reflexivity|].
  destruct (while_loop_reaches x0 y0 n0 _ (reaches_start x0 y0 n0))
    as [Hr _].
  pose proof (sweep_transitions_from_square _ _ _ _ Hr) as [Hstep _].
  destruct (sweep_size_invariant _ _ _ _ Hr)
    as [(_ & Et & _) | (_ & _ & Hb)].
  - rewrite Et. cbn [List.length Z.of_nat]. lia.
  - lia.
Qed.

Lemma allTransitions_size_linear_witness :
  exists fs, allTransitions 10 10 19 = And fs /\
             Z.of_nat (List.length fs) <= 2 * 19 + 1.
Proof. apply (allTransitions_size_linear 10 10 19). lia. Defined.

(** ** Traces of the game are models *)

Lemma beans_of_In tr c val k :
  In (c, val, k) (beans_of tr) <->
  exists q, In (k, q) tr /\ val = count c q.
Proof.
  unfold beans_of. rewrite in_flat_map. split.
  - intros ([k' q] & Hin & H). cbn [fst snd] in H.
    destruct H as [[= <- <- <-] | [[= <- <- <-] | []]];
      exists q; auto.
  - intros (q & Hin & ->). exists (k, q). split; [assumption|].
    cbn [fst snd]. destruct c; simpl; auto.
Qed.

Lemma beans_of_functional tr :
  one_config_per_step tr -> functional (beans_of tr).
Proof.
  intros H c a b k Ha Hb.
  apply beans_of_In in Ha as (q & Hq & ->), Hb as (q' & Hq' & ->).
  rewrite (H k q q' Hq Hq'). reflexivity.
Qed.

Lemma trace_holds_config tr k q :
  In (k, q) tr ->
  eval (model_of (beans_of tr)) (And [bean black (fst q) k;
                                      bean white (snd q) k]) = true.
Proof.
  intros Hin. apply eval_And2.
  split; apply model_of_spec, beans_of_In; exists q; auto.
Qed.

(** A trace with one configuration per step that follows the rules
    satisfies the implication of every configuration at every step. *)
Lemma trace_satisfies_nextStep tr x y k :
  one_config_per_step tr -> follows_rules tr ->
  eval (model_of (beans_of tr)) (fst (nextStep x y k)) = true.
Proof.
  intros H1 Hf. cbn [nextStep fst]. apply eval_Implies. intros Hp.
  apply eval_And2 in Hp as [Hb Hw].
  apply model_of_spec, beans_of_In in Hb as (q & Hq & Hx).
  apply model_of_spec, beans_of_In in Hw as (q' & Hq' & Hy).
  rewrite <- (H1 k q q' Hq Hq') in Hy. clear q' Hq'.
  destruct q as [qx qy]. simpl in Hx, Hy. subst qx qy.
  apply eval_Or.
  destruct (Hf k (x, y) Hq) as [H3 | (q' & Hn & Hq')]; cbn [fst snd] in *.
  - exists (And [bean black x k; bean white y k]). split.
    + apply NextConfs_In. auto.
    + apply (trace_holds_config tr k (x, y) Hq).
  - apply NextPoints_In in Hn as [[Hr ->] | [Hr ->]].
    + exists (And [bean black (x + 1) (k + 1); bean white (y - 2) (k + 1)]).
      split; [apply NextConfs_In; auto|].
      apply (trace_holds_config tr (k + 1) (x + 1, y - 2) Hq').
    + exists (And [bean black (x - 1) (k + 1); bean white y (k + 1)]).
      split; [apply NextConfs_In; auto|].
      apply (trace_holds_config tr (k + 1) (x - 1, y) Hq').
Qed.

Lemma trace_satisfies_allTransitions tr x0 y0 n0 :
  one_config_per_step tr -> follows_rules tr ->
  eval (model_of (beans_of tr)) (allTransitions x0 y0 n0) = true.
Proof.
  intros H1 Hf. unfold allTransitions. apply eval_And. intros f Hin.
  destruct (while_loop_reaches x0 y0 n0 _ (reaches_start x0 y0 n0))
    as [Hr _].
  apply sweep_transitions_from_square in Hr as [_ Hr].
  destruct (Hr f Hin) as (x & y & n & _ & _ & _ & ->).
  apply trace_satisfies_nextStep; assumption.
Qed.

Lemma trace_model x y n tr :
  one_config_per_step tr -> follows_rules tr ->
  In (0, (x, y)) tr -> In (n, (0, 1)) tr ->
  eval (model_of (beans_of tr))
       (And [init x y; final 0 1 n; allTransitions x y n; uniqueVals x y n])
  = true.
Proof.
  intros H1 Hf H0 Hl.
  apply eval_And. intros f [<- | [<- | [<- | [<- | []]]]].
  - apply (trace_holds_config tr 0 (x, y) H0).
  - apply (trace_holds_config tr n (0, 1) Hl).
  - apply trace_satisfies_allTransitions; assumption.
  - apply uniqueVals_model_of, beans_of_functional. assumption.
Qed.

Lemma trace_satisfiable x y n tr :
  1 <= x + y -> 0 <= n ->
  one_config_per_step tr -> follows_rules tr ->
  In (0, (x, y)) tr -> In (n, (0, 1)) tr ->
  exists f, Gries x y n = Ok f /\ satisfiable f.
Proof.
  intros Hxy Hn H1 Hf H0 Hl.
  eexists. split; [apply Gries_Ok; assumption|].
  eexists. apply trace_model; eassumption.
Qed.

(** X9. [Gries] is complete for runs of the game: a trace with one
    configuration per step, each a rule-3 fixed point or followed by
    one of its next configurations, that holds (x,y) at step 0 and
    (0,1) at step n gives a model of the formula of [Gries x y n]. *)
Theorem Gries_complete_for_traces x y n tr :
  1 <= x + y -> 0 <= n ->
  one_config_per_step tr -> follows_rules tr ->
  In (0, (x, y)) tr -> In (n, (0, 1)) tr ->
  exists f, Gries x y n = Ok f /\
            eval (model_of (beans_of tr)) f = true.
Proof.
  intros Hxy Hn H1 Hf H0 Hl.
  eexists. split; [apply Gries_Ok; assumption|].
  apply trace_model; assumption.
Qed.

Lemma Gries_complete_for_traces_witness :
  exists f, Gries 1 1 1 = Ok f /\
            eval (model_of (beans_of [(0, (1, 1)); (1, (0, 1))])) f = true.
Proof.
  apply (Gries_complete_for_traces 1 1 1 [(0, (1, 1)); (1, (0, 1))]);
    try lia.
  - intros k q q' [[= <- <-] | [[= <- <-] | []]]
                  [[= ?] | [[= ?] | []]]; subst; try reflexivity; lia.
  - intros k q [[= <- <-] | [[= <- <-] | []]].
    + right. exists (0, 1). split; [vm_compute; auto | simpl; auto].
    + left. reflexivity.
  - simpl. auto.
  - simpl. auto.
Defined.

(** ** The canonical play *)

Lemma play_spec x y :
  0 <= x -> 0 <= y -> 2 <= x + y ->
  In (play (x, y)) (NextPoints x y) /\
  0 <= fst (play (x, y)) /\ 0 <= snd (play (x, y)) /\
  fst (play (x, y)) + snd (play (x, y)) = x + y - 1 /\
  Z.odd (snd (play (x, y))) = Z.odd y.
Proof.
  intros Hx Hy Hxy. unfold play, NextPoints, rule1, rule2. cbn [fst snd].
  destruct (Z.geb_spec y 2).
  - cbn [app]. destruct (_ || _); cbn [app fst snd];
      (split; [left; reflexivity|]);
      repeat split; try lia;
      replace (y - 2) with (y + 2 * (-1)) by lia;
      apply Z.odd_add_mul_2.
  - destruct (Z.geb_spec x 2); cbn [orb app fst snd].
    + split; [left; reflexivity|]. repeat split; lia.
    + destruct (Z.geb_spec x 1); destruct (Z.geb_spec y 1);
        cbn [andb app fst snd]; try lia.
      split; [left; reflexivity|]. repeat split; lia.
Qed.

Lemma play_n_spec x y j :
  0 <= x -> 0 <= y -> Z.of_nat j <= x + y - 1 ->
  0 <= fst (play_n j (x, y)) /\ 0 <= snd (play_n j (x, y)) /\
  fst (play_n j (x, y)) + snd (play_n j (x, y)) = x + y - Z.of_nat j /\
  Z.odd (snd (play_n j (x, y))) = Z.odd y.
Proof.
  intros Hx Hy. induction j as [|j IH]; intros Hj.
  - simpl. repeat split; lia.
  - destruct IH as (Ha & Hb & Hs & Ho); [lia|].
    cbn [play_n]. destruct (play_n j (x, y)) as [a b]. cbn [fst snd] in *.
    destruct (play_spec a b Ha Hb ltac:(lia)) as (_ & Ha' & Hb' & Hs' & Ho').
    repeat split; try assumption; try lia. congruence.
Qed.

Lemma run_In m p k q :
  In (k, q) (run m p) <->
  exists j, (j < m)%nat /\ k = Z.of_nat j /\ q = play_n j p.
Proof.
  unfold run. rewrite in_map_iff. split.
  - intros (j & [= <- <-] & Hj). apply in_seq in Hj. exists j.
    repeat split; lia.
  - intros (j & Hj & -> & ->). exists j. split; [reflexivity|].
    apply in_seq. lia.
Qed.

Lemma total_one x y :
  0 <= x -> 0 <= y -> x + y = 1 -> rule3 x y = true.
Proof.
  intros Hx Hy Hs. apply rule3_iff.
  assert ((x = 1 /\ y = 0) \/ (x = 0 /\ y = 1)) as [[-> ->] | [-> ->]]
    by lia; auto.
Qed.

(** The run of x+y steps from (x,y), followed by any trace [rest] of
    later steps that follows the rules, follows the rules. *)
Lemma run_follows_rules x y :
  0 <= x -> 0 <= y -> 1 <= x + y ->
  forall k q, In (k, q) (run (Z.to_nat (x + y)) (x, y)) ->
    rule3 (fst q) (snd q) = true \/
    exists q', In q' (NextPoints (fst q) (snd q)) /\
               In (k + 1, q') (run (Z.to_nat (x + y)) (x, y)).
Proof.
  intros Hx Hy Hxy k q Hin.
  apply run_In in Hin as (j & Hj & -> & ->).
  destruct (play_n_spec x y j Hx Hy ltac:(lia)) as (Ha & Hb & Hs & _).
  destruct (Z.eq_dec (Z.of_nat j) (x + y - 1)) as [E | E].
  - left. apply total_one; lia.
  - right. exists (play_n (S j) (x, y)). split.
    + cbn [play_n]. destruct (play_n j (x, y)) as [a b].
      cbn [fst snd] in *. apply play_spec; lia.
    + apply run_In. exists (S j). repeat split; lia.
Qed.

Lemma run_one_config_per_step m p : one_config_per_step (run m p).
Proof.
  intros k q q' Hq Hq'.
  apply run_In in Hq as (j & _ & -> & ->), Hq' as (j' & _ & E & ->).
  apply Nat2Z.inj in E. subst. reflexivity.
Qed.

(** X10. With non-negative x and an odd number y of white beans, the
    formula of [Gries] at the default bound x+y-1 is satisfiable: the
    play that follows the first rule that applies ends at (0,1). *)
Theorem Gries_default_bound_complete x y :
  0 <= x -> 0 <= y -> Z.odd y = true ->
  exists f, Gries x y (x + y - 1) = Ok f /\ satisfiable f.
Proof.
  intros Hx Hy Ho.
  assert (Hy1 : 1 <= y) by (destruct (Z.eq_dec y 0) as [-> |]; [discriminate | lia]).
  set (m := Z.to_nat (x + y)).
  apply (trace_satisfiable x y (x + y - 1) (run m (x, y))); try lia.
  - apply run_one_config_per_step.
  - intros k q. apply run_follows_rules; lia.
  - apply run_In. exists 0%nat. repeat split. lia.
  - apply run_In. exists (Z.to_nat (x + y - 1)). split; [lia|].
    split; [lia|].
    destruct (play_n_spec x y (Z.to_nat (x + y - 1)) Hx Hy ltac:(lia))
      as (Ha & Hb & Hs & Hodd).
    destruct (play_n _ _) as [a b]. cbn [fst snd] in *.
    rewrite Ho in Hodd.
    assert (b <> 0) by (intros ->; discriminate).
    f_equal; lia.
Qed.

Lemma Gries_default_bound_complete_witness :
  exists f, Gries 2 3 (2 + 3 - 1) = Ok f /\ satisfiable f.
Proof.
  apply (Gries_default_bound_complete 2 3); [lia | lia | reflexivity].
Defined.

(** X11. With non-negative counts, x+y >= 1 and any bound n >= x+y,
    the formula of [Gries x y n] is satisfiable whatever the start:
    the play ends on a fixed point of rule 3 at step x+y-1, and nothing
    relates the later steps to it, so (0,1) can be put at step n. *)
Theorem Gries_satisfiable_beyond_total x y n :
  0 <= x -> 0 <= y -> 1 <= x + y -> x + y <= n ->
  exists f, Gries x y n = Ok f /\ satisfiable f.
Proof.
  intros Hx Hy Hxy Hn.
  set (m := Z.to_nat (x + y)).
  apply (trace_satisfiable x y n (run m (x, y) ++ [(n, (0, 1))]));
    try lia.
  - intros k q q' Hq Hq'.
    apply in_app_or in Hq as [Hq | [Hq | []]];
      apply in_app_or in Hq' as [Hq' | [Hq' | []]].
    + eapply run_one_config_per_step; eauto.
    + apply run_In in Hq as (j & Hj & -> & _).
      injection Hq' as E _. lia.
    + apply run_In in Hq' as (j & Hj & -> & _).
      injection Hq as E _. lia.
    + congruence.
  - intros k q Hq. apply in_app_or in Hq as [Hq | [[= <- <-] | []]].
    + destruct (run_follows_rules x y Hx Hy Hxy k q Hq)
        as [H3 | (q' & Hn' & Hq')]; [left; assumption|].
      right. exists q'. split; [assumption|]. apply in_or_app. auto.
    + left. reflexivity.
  - apply in_or_app. left. apply run_In. exists 0%nat. repeat split. lia.
  - apply in_or_app. right. simpl. auto.
Qed.

Lemma Gries_satisfiable_beyond_total_witness :
  exists f, Gries 2 0 2 = Ok f /\ satisfiable f.
Proof.
  apply (Gries_satisfiable_beyond_total 2 0 2); lia.
Defined.

(** X12. At bound 0, for non-negative counts with x+y >= 1, the formula
    of [Gries] is satisfiable exactly when the start is (0,1). *)
Theorem Gries_bound_0_exact x y :
  0 <= x -> 0 <= y -> 1 <= x + y ->
  ((exists f, Gries x y 0 = Ok f /\ satisfiable f) <-> (x, y) = (0, 1)).
Proof.
  intros Hx Hy Hxy. split.
  - intros (f & HG & Hsat).
    assert (H : (x, y) = (0, 1) \/ (x, y) <> (0, 1))
      by (destruct (Z.eq_dec x 0), (Z.eq_dec y 1);
          [left; congruence | right; congruence ..]).
    destruct H as [H | H]; [exact H|].
    exfalso. exact (Gries_bound_0_unsat x y f Hx Hy H HG Hsat).
  - intros [= -> ->].
    apply (trace_satisfiable 0 1 0 [(0, (0, 1))]); try lia.
    + intros k q q' [Hq | []] [Hq' | []]. congruence.
    + intros k q [[= <- <-] | []]. left. reflexivity.
    + simpl. auto.
    + simpl. auto.
Qed.

Lemma Gries_bound_0_exact_witness :
  (exists f, Gries 0 1 0 = Ok f /\ satisfiable f) <-> (0, 1) = (0, 1).
Proof. apply (Gries_bound_0_exact 0 1); lia. Defined.

(** ** The sweep: which implications it returns *)

Lemma for_loop_adds x0 y0 n l :
  forall t nt,
  let r := fold_left (for_body x0 y0 n) l (t, nt) in
  (forall f, In f t -> In f (fst r)) /\
  (forall p, In p l ->
     in_range (fst p) 0 (x0 + y0 + 1)
       && in_range (snd p) 0 (x0 + y0 + 1) = true ->
     In (fst (nextStep (fst p) (snd p) n)) (fst r)).
Proof.
  induction l as [|[x y] l IH]; intros t nt; cbn zeta.
  - simpl. split; [auto | intros p []].
  - cbn [fold_left].
    destruct (in_range x 0 (x0 + y0 + 1) && in_range y 0 (x0 + y0 + 1))
      eqn:Hr.
    + assert (E : for_body x0 y0 n (t, nt) (x, y)
                  = (t ++ [fst (nextStep x y n)], NextPoints x y))
        by (unfold for_body; rewrite Hr; reflexivity).
      rewrite E.
      destruct (IH (t ++ [fst (nextStep x y n)]) (NextPoints x y))
        as [IHt IHp].
      split.
      * intros f Hf. apply IHt, in_or_app. auto.
      * intros p [<- | Hp] Hpr.
        -- apply IHt, in_or_app. right. cbn [fst snd]. left. reflexivity.
        -- apply IHp; assumption.
    + assert (E : for_body x0 y0 n (t, nt) (x, y) = (t, nt))
        by (unfold for_body; rewrite Hr; reflexivity).
      rewrite E. destruct (IH t nt) as [IHt IHp].
      split; [exact IHt|].
      intros p [<- | Hp] Hpr.
      * cbn [fst snd] in Hpr. congruence.
      * apply IHp; assumption.
Qed.

Lemma while_body_adds x0 y0 s :
  (forall f, In f (transitions_optimised s) ->
     In f (transitions_optimised (while_body x0 y0 s))) /\
  (forall p, In p (next_transitions s) ->
     in_range (fst p) 0 (x0 + y0 + 1)
       && in_range (snd p) 0 (x0 + y0 + 1) = true ->
     In (fst (nextStep (fst p) (snd p) (step_n s)))
        (transitions_optimised (while_body x0 y0 s))).
Proof.
  pose proof (for_loop_adds x0 y0 (step_n s) (next_transitions s)
                (transitions_optimised s) []) as H.
  cbn zeta in H. unfold while_body.
  destruct (fold_left _ _ _) as [t nt]. exact H.
Qed.

(** The loop only appends to [transitions_optimised]. *)
Lemma while_loop_keeps x0 y0 n0 s f :
  In f (transitions_optimised s) ->
  In f (transitions_optimised (while_loop x0 y0 n0 s)).
Proof.
  remember (Z.to_nat (n0 + 1 - step_n s)) as m eqn:Hm.
  revert s Hm. induction m as [m IH] using lt_wf_ind. intros s Hm Hf.
  destruct (while_cond n0 s) eqn:Hc.
  - rewrite (while_loop_true _ _ _ _ Hc).
    apply (IH (Z.to_nat (n0 + 1 - step_n (while_body x0 y0 s)))).
    + rewrite while_body_step_n. apply while_cond_lt in Hc. lia.
    + reflexivity.
    + apply while_body_adds. assumption.
  - rewrite (while_loop_false _ _ _ _ Hc). assumption.
Qed.

(** Run from any state it goes through, the loop ends where it ends
    when run from the start. *)
Lemma while_loop_from_reached x0 y0 n0 s :
  sweep_reaches x0 y0 n0 s ->
  while_loop x0 y0 n0 s = while_loop x0 y0 n0 (Sweep [] [(x0, y0)] 0).
Proof.
  induction 1 as [|s Hs IH Hc]; [reflexivity|].
  rewrite <- IH. symmetry. apply while_loop_true. assumption.
Qed.

Lemma expanded_conjunct x0 y0 n0 p n :
  expanded x0 y0 n0 p n ->
  In (fst (nextStep (fst p) (snd p) n))
     (transitions_optimised (while_loop x0 y0 n0 (Sweep [] [(x0, y0)] 0))).
Proof.
  intros (s & Hs & Hc & <- & Hp & Hr).
  rewrite <- (while_loop_from_reached _ _ _ _ Hs).
  rewrite (while_loop_true _ _ _ _ Hc).
  apply while_loop_keeps, while_body_adds; assumption.
Qed.

(** X13. The conjuncts of [allTransitions x0 y0 n0] are exactly the
    implications of the configurations the loop calls [nextStep] on,
    each at the step of the call: none is lost and none is added. *)
Theorem allTransitions_conjuncts x0 y0 n0 fs f :
  allTransitions x0 y0 n0 = And fs ->
  (In f fs <->
   exists p n, expanded x0 y0 n0 p n /\
               f = fst (nextStep (fst p) (snd p) n)).
Proof.
  intros [= <-]. split.
  - apply sweep_transitions_expanded.
    apply while_loop_reaches, reaches_start.
  - intros (p & n & He & ->). apply expanded_conjunct. assumption.
Qed.

Lemma allTransitions_conjuncts_witness :
  In (fst (nextStep 1 4 0))
     (transitions_optimised (while_loop 1 4 2 (Sweep [] [(1, 4)] 0))) <->
  exists p n, expanded 1 4 2 p n /\
              fst (nextStep 1 4 0) = fst (nextStep (fst p) (snd p) n).
Proof.
  apply (allTransitions_conjuncts 1 4 2). reflexivity.
Defined.

(** ** The sweep: how many rounds *)

Lemma for_loop_last x0 y0 n l :
  forall t nt,
  (exists p, In p l /\
     in_range (fst p) 0 (x0 + y0 + 1)
       && in_range (snd p) 0 (x0 + y0 + 1) = true) ->
  exists p, In p l /\
    in_range (fst p) 0 (x0 + y0 + 1)
      && in_range (snd p) 0 (x0 + y0 + 1) = true /\
    snd (fold_left (for_body x0 y0 n) l (t, nt))
    = NextPoints (fst p) (snd p).
Proof.
  induction l as [|[x y] l IH]; intros t nt (p & Hp & Hpr).
  - destruct Hp.
  - cbn [fold_left].
    destruct (in_range x 0 (x0 + y0 + 1) && in_range y 0 (x0 + y0 + 1))
      eqn:Hr.
    + assert (E : for_body x0 y0 n (t, nt) (x, y)
                  = (t ++ [fst (nextStep x y n)], NextPoints x y))
        by (unfold for_body; rewrite Hr; reflexivity).
      rewrite E.
      destruct (proj2 (for_loop_spec x0 y0 n l
                         (t ++ [fst (nextStep x y n)]) (NextPoints x y)))
        as [E' | (q & Hq & Hqr & E')].
      * exists (x, y). cbn [fst snd]. auto using in_eq.
      * exists q. auto using in_cons.
    + assert (E : for_body x0 y0 n (t, nt) (x, y) = (t, nt))
        by (unfold for_body; rewrite Hr; reflexivity).
      rewrite E.
      destruct Hp as [<- | Hp]; [cbn [fst snd] in Hpr; congruence|].
      destruct (IH t nt (ex_intro _ p (conj Hp Hpr)))
        as (q & Hq & Hqr & E').
      exists q. auto using in_cons.
Qed.

Lemma NextPoints_nonempty x y :
  0 <= x -> 0 <= y -> 2 <= x + y -> NextPoints x y <> [].
Proof.
  intros Hx Hy Hxy E.
  destruct (play_spec x y Hx Hy Hxy) as [Hin _].
  rewrite E in Hin. destruct Hin.
Qed.

Section Rounds.

Variables x0 y0 n0 : Z.
Hypothesis Hx0 : 0 <= x0.
Hypothesis Hy0 : 0 <= y0.
Hypothesis Hxy : 1 <= x0 + y0.

Lemma sweep_in_range s p :
  sweep_reaches x0 y0 n0 s -> In p (next_transitions s) ->
  0 <= fst p /\ 0 <= snd p /\
  in_range (fst p) 0 (x0 + y0 + 1)
    && in_range (snd p) 0 (x0 + y0 + 1) = true.
Proof.
  intros Hs Hp.
  assert (Hb : 0 <= fst p /\ 0 <= snd p /\ fst p + snd p <= x0 + y0)
    by (destruct (sweep_configurations_bounded _ _ _ _ Hs p Hp)
          as [-> | ?]; simpl; lia).
  repeat split; try lia.
  apply andb_true_iff. split; apply in_range_spec; lia.
Qed.

(** Before step x0+y0 the list of the loop is not empty. *)
Lemma sweep_list_nonempty s :
  sweep_reaches x0 y0 n0 s -> step_n s < x0 + y0 ->
  next_transitions s <> [].
Proof.
  intros Hs. destruct Hs as [|s Hs Hc]; intros Hn.
  - discriminate.
  - rewrite while_body_step_n in Hn.
    assert (Hne : exists p, In p (next_transitions s)).
    { unfold while_cond in Hc.
      destruct (next_transitions s) as [|p l]; [discriminate|].
      exists p. left. reflexivity. }
    destruct Hne as [p Hp].
    destruct (sweep_in_range s p Hs Hp) as (_ & _ & Hpr).
    destruct (for_loop_last x0 y0 (step_n s) (next_transitions s)
                (transitions_optimised s) []
                (ex_intro _ p (conj Hp Hpr)))
      as (q & Hq & _ & E).
    assert (E' : next_transitions (while_body x0 y0 s)
                 = NextPoints (fst q) (snd q)).
    { unfold while_body. destruct (fold_left _ _ _) as [t nt]. exact E. }
    rewrite E'.
    destruct (sweep_in_range s q Hs Hq) as (Hqx & Hqy & _).
    pose proof (sweep_total _ _ _ _ Hs q Hq).
    apply NextPoints_nonempty; lia.
Qed.

(** The step counter never passes x0+y0. *)
Lemma sweep_step_bounded s :
  sweep_reaches x0 y0 n0 s -> step_n s <= x0 + y0.
Proof.
  intros Hs. destruct Hs as [|s Hs Hc].
  - simpl. lia.
  - rewrite while_body_step_n.
    unfold while_cond in Hc.
    destruct (next_transitions s) as [|p l] eqn:El; [discriminate|].
    assert (Hp : In p (next_transitions s)) by (rewrite El; left; reflexivity).
    destruct (sweep_in_range s p Hs Hp) as (Hpx & Hpy & _).
    pose proof (sweep_total _ _ _ _ Hs p Hp) as Ht.
    assert (p <> (0, 0))
      by (intros ->; exact (sweep_origin_free _ _ _ _ Hxy Hs Hp)).
    assert (fst p + snd p <> 0).
    { intros H0. destruct p as [a b]. cbn [fst snd] in *.
      assert (a = 0) by lia. assert (b = 0) by lia. congruence. }
    lia.
Qed.

End Rounds.

(** X14. For non-negative counts with x0+y0 >= 1 and a bound n0 >= 0,
    the loop of [allTransitions] runs exactly min(n0+1, x0+y0) rounds:
    it stops at the bound, or earlier when the configurations of total
    1 have been expanded and have left no successor. *)
Theorem allTransitions_rounds x0 y0 n0 :
  0 <= x0 -> 0 <= y0 -> 1 <= x0 + y0 -> 0 <= n0 ->
  step_n (while_loop x0 y0 n0 (Sweep [] [(x0, y0)] 0))
  = Z.min (n0 + 1) (x0 + y0).
Proof.
  intros Hx0 Hy0 Hxy Hn.
  destruct (while_loop_reaches x0 y0 n0 _ (reaches_start x0 y0 n0))
    as [Hr Hc].
  set (s := while_loop x0 y0 n0 (Sweep [] [(x0, y0)] 0)) in *.
  pose proof (sweep_step_bounded x0 y0 n0 Hx0 Hy0 Hxy s Hr) as Hle.
  pose proof (sweep_transitions_from_square _ _ _ _ Hr) as [Hstep _].
  pose proof (sweep_list_nonempty x0 y0 n0 Hx0 Hy0 s Hr) as Hne.
  unfold while_cond in Hc.
  destruct (next_transitions s) as [|p l].
  - assert (~ step_n s < x0 + y0) by (intros H; apply (Hne H); reflexivity).
    lia.
  - apply Z.ltb_ge in Hc. lia.
Qed.

Lemma allTransitions_rounds_witness :
  step_n (while_loop 10 10 19 (Sweep [] [(10, 10)] 0))
  = Z.min (19 + 1) (10 + 10).
Proof. apply (allTransitions_rounds 10 10 19); lia. Defined.

(** ** No white bean *)

Lemma NextPoints_no_white z :
  2 <= z ->
  NextPoints z 0 = [(z - 1, 0)] /\
  forall n, NextConfs z 0 n =
            [And [bean black (z - 1) (n + 1); bean white 0 (n + 1)]].
Proof.
  intros Hz.
  assert (H1 : rule1 z 0 = false) by reflexivity.
  assert (H2 : rule2 z 0 = true) by (apply rule2_iff; lia).
  assert (H3 : rule3 z 0 = false).
  { destruct (rule3 z 0) eqn:E; [|reflexivity].
    apply rule3_iff in E as [[= ->] | [= ->]]; lia. }
  unfold NextPoints, NextConfs. rewrite H1, H2, H3. auto.
Qed.

(** From (x,0) the sweep walks down the black beans one by one. *)
Lemma sweep_no_white x n0 k :
  (Z.of_nat k < x) -> Z.of_nat k <= n0 + 1 ->
  exists s, sweep_reaches x 0 n0 s /\ step_n s = Z.of_nat k /\
            next_transitions s = [(x - Z.of_nat k, 0)].
Proof.
  induction k as [|k IH]; intros Hk Hn.
  - exists (Sweep [] [(x, 0)] 0). split; [apply reaches_start|].
    split; [reflexivity|]. cbn [next_transitions Z.of_nat]. repeat f_equal. lia.
  - destruct IH as (s & Hs & Hstep & Hl); [lia | lia|].
    exists (while_body x 0 s).
    assert (Hc : while_cond n0 s = true).
    { unfold while_cond. rewrite Hl, Hstep. apply Z.ltb_lt. lia. }
    split; [apply reaches_round; assumption|].
    split; [rewrite while_body_step_n; lia|].
    assert (Hin : In (x - Z.of_nat k, 0) (next_transitions s))
      by (rewrite Hl; left; reflexivity).
    assert (Hr : in_range (x - Z.of_nat k) 0 (x + 0 + 1)
                 && in_range 0 0 (x + 0 + 1) = true)
      by (apply andb_true_iff; split; apply in_range_spec; lia).
    destruct (for_loop_last x 0 (step_n s) (next_transitions s)
                (transitions_optimised s) []
                (ex_intro _ _ (conj Hin Hr)))
      as (q & Hq & _ & E).
    rewrite Hl in Hq. destruct Hq as [<- | []]. cbn [fst snd] in E.
    assert (E' : next_transitions (while_body x 0 s)
                 = NextPoints (x - Z.of_nat k) 0).
    { unfold while_body. destruct (fold_left _ _ _) as [t nt]. exact E. }
    rewrite E', (proj1 (NextPoints_no_white (x - Z.of_nat k) ltac:(lia))).
    replace (x - Z.of_nat (S k)) with (x - Z.of_nat k - 1) by lia.
    reflexivity.
Qed.

(** X15. With x >= 1 black beans and no white bean, the formula of
    [Gries] at the default bound x-1 has no model: the sweep forces
    the configuration (x-k, 0) at every step k, so (1,0), not (0,1),
    at the last one. *)
Theorem Gries_no_white_unsat x f :
  1 <= x -> Gries x 0 (x + 0 - 1) = Ok f -> ~ satisfiable f.
Proof.
  intros Hx HG [v Hv].
  destruct (Gries_model _ _ _ _ _ HG Hv) as (Hi & Hf & Ht & Hu).
  assert (Hk : forall k, Z.of_nat k < x ->
            eval v (bean black (x - Z.of_nat k) (Z.of_nat k)) = true /\
            eval v (bean white 0 (Z.of_nat k)) = true).
  { induction k as [|k IH]; intros Hlt.
    - apply eval_And2 in Hi.
      replace (x - Z.of_nat 0) with x by (simpl; lia). exact Hi.
    - destruct IH as [Hb Hw]; [lia|].
      destruct (sweep_no_white x (x + 0 - 1) k ltac:(lia) ltac:(lia))
        as (s & Hs & Hstep & Hl).
      assert (He : expanded x 0 (x + 0 - 1) (x - Z.of_nat k, 0) (Z.of_nat k)).
      { exists s. split; [assumption|]. split.
        - unfold while_cond. rewrite Hl, Hstep. apply Z.ltb_lt. lia.
        - split; [assumption|]. split; [rewrite Hl; left; reflexivity|].
          cbn [fst snd]. apply andb_true_iff.
          split; apply in_range_spec; lia. }
      apply expanded_conjunct in He. cbn [fst snd] in He.
      unfold allTransitions in Ht. rewrite eval_And in Ht.
      specialize (Ht _ He). cbn [nextStep fst] in Ht.
      rewrite (proj2 (NextPoints_no_white (x - Z.of_nat k) ltac:(lia))) in Ht.
      rewrite eval_Implies in Ht.
      assert (Hp : eval v (And [bean black (x - Z.of_nat k) (Z.of_nat k);
                                bean white 0 (Z.of_nat k)]) = true)
        by (apply eval_And2; auto).
      apply Ht in Hp. apply eval_Or in Hp as (g & [<- | []] & Hg).
      apply eval_And2 in Hg.
      replace (x - Z.of_nat (S k)) with (x - Z.of_nat k - 1) by lia.
      replace (Z.of_nat (S k)) with (Z.of_nat k + 1) by lia.
      exact Hg. }
  destruct (Hk (Z.to_nat (x - 1)) ltac:(lia)) as [Hb _].
  replace (Z.of_nat (Z.to_nat (x - 1))) with (x + 0 - 1) in Hb by lia.
  replace (x - (x + 0 - 1)) with 1 in Hb by lia.
  apply eval_And2 in Hf as [Hfb _].
  apply uniqueVals_step with (i := x + 0 - 1) in Hu; [|lia].
  assert (1 = 0); [|lia].
  apply (uniqueVal_at_most_one v x 0 (x + 0 - 1) black 1 0 Hu); auto; lia.
Qed.

Lemma Gries_no_white_unsat_witness :
  ~ satisfiable (And [init 3 0; final 0 1 (3 + 0 - 1);
                      allTransitions 3 0 (3 + 0 - 1);
                      uniqueVals 3 0 (3 + 0 - 1)]).
Proof.
  apply (Gries_no_white_unsat 3); [lia|].
  apply Gries_Ok; lia.
Defined.

(** ** The sweep: what a round leaves for the next one *)

Lemma for_loop_keeps_last x0 y0 n l d :
  forall t nt,
    snd (fold_left (for_body x0 y0 n) l (t, nt)) =
    match filter (passes_range_test x0 y0) l with
    | [] => nt
    | _ :: _ =>
        NextPoints (fst (last (filter (passes_range_test x0 y0) l) d))
                   (snd (last (filter (passes_range_test x0 y0) l) d))
    end.
Proof.
  induction l as [|[x y] l IH]; intros t nt; [reflexivity|].
  cbn [fold_left filter].
  change (passes_range_test x0 y0 (x, y))
    with (in_range x 0 (x0 + y0 + 1) && in_range y 0 (x0 + y0 + 1)).
  destruct (in_range x 0 (x0 + y0 + 1) && in_range y 0 (x0 + y0 + 1))
    eqn:Hr.
  - assert (E : for_body x0 y0 n (t, nt) (x, y)
                = (t ++ [fst (nextStep x y n)], NextPoints x y))
      by (unfold for_body; rewrite Hr; reflexivity).
    rewrite E, IH.
    destruct (filter (passes_range_test x0 y0) l) as [|q r];
      reflexivity.
  - assert (E : for_body x0 y0 n (t, nt) (x, y) = (t, nt))
      by (unfold for_body; rewrite Hr; reflexivity).
    rewrite E. apply IH.
Qed.

(** X16. A round of the loop of [allTransitions] leaves in
    [next_transitions] the next configurations of one configuration
    only, the last of the list that passes the range test (each tuple
    assignment replaces the list of the configuration before), and the
    empty list when none passes. *)
Theorem while_body_keeps_last_successors x0 y0 s :
  next_transitions (while_body x0 y0 s) =
  match filter (passes_range_test x0 y0) (next_transitions s) with
  | [] => []
  | _ :: _ =>
      snd (nextStep
             (fst (last (filter (passes_range_test x0 y0)
                           (next_transitions s)) (0, 0)))
             (snd (last (filter (passes_range_test x0 y0)
                           (next_transitions s)) (0, 0)))
             (step_n s))
  end.
Proof.
  pose proof (for_loop_keeps_last x0 y0 (step_n s) (next_transitions s)
                (0, 0) (transitions_optimised s) []) as H.
  unfold while_body. destruct (fold_left _ _ _) as [t nt]. exact H.
Qed.

(** ** The sweep and the bound *)

Lemma sweep_reaches_mono x0 y0 n0 n1 s :
  n0 <= n1 -> sweep_reaches x0 y0 n0 s -> sweep_reaches x0 y0 n1 s.
Proof.
  intros Hle. induction 1 as [|s Hs IH Hc].
  - apply reaches_start.
  - apply reaches_round; [assumption|].
    unfold while_cond in *. destruct (next_transitions s); [discriminate|].
    apply Z.ltb_lt in Hc. apply Z.ltb_lt. lia.
Qed.

Lemma expanded_mono x0 y0 n0 n1 p n :
  n0 <= n1 -> expanded x0 y0 n0 p n -> expanded x0 y0 n1 p n.
Proof.
  intros Hle (s & Hs & Hc & Hn & Hp & Hr).
  exists s. split; [eapply sweep_reaches_mono; eauto|].
  split; [|auto].
  unfold while_cond in *. destruct (next_transitions s); [discriminate|].
  apply Z.ltb_lt in Hc. apply Z.ltb_lt. lia.
Qed.

(** X17. Raising the bound only adds implications: for n0 <= n1 every
    conjunct of [allTransitions x0 y0 n0] is a conjunct of
    [allTransitions x0 y0 n1]. *)
Theorem allTransitions_bound_monotone x0 y0 n0 n1 fs gs :
  n0 <= n1 ->
  allTransitions x0 y0 n0 = And fs -> allTransitions x0 y0 n1 = And gs ->
  incl fs gs.
Proof.
  intros Hle [= <-] [= <-] f Hf.
  destruct (sweep_transitions_expanded x0 y0 n0 _
              (proj1 (while_loop_reaches x0 y0 n0 _ (reaches_start _ _ _)))
              f Hf) as (p & n & He & ->).
  apply expanded_conjunct. eapply expanded_mono; eauto.
Qed.

Lemma allTransitions_bound_monotone_witness :
  incl (transitions_optimised (while_loop 1 4 1 (Sweep [] [(1, 4)] 0)))
       (transitions_optimised (while_loop 1 4 2 (Sweep [] [(1, 4)] 0))).
Proof.
  apply (allTransitions_bound_monotone 1 4 1 2); [lia | reflexivity ..].
Defined.

(** ** Plays of the game *)



(** ** The conjunction without pruning at the default bound *)

Lemma unpruned_conjunct v x0 y0 n0 x y n :
  eval v (allTransitions_unpruned x0 y0 n0) = true ->
  0 <= x <= x0 + y0 -> 0 <= y <= x0 + y0 -> 0 <= n <= n0 ->
  eval v (fst (nextStep x y n)) = true.
Proof.
  intros Hv Hx Hy Hn.
  unfold allTransitions_unpruned in Hv. rewrite eval_And in Hv.
  apply Hv. eapply unpruned_In; eauto.
Qed.

(** In a model of the initial state and of the conjunction without
    pruning, every step up to x0+y0-1 holds a configuration of the
    play: counts not negative, one bean less per step, the white
    parity of the start. *)
Lemma unpruned_forces_play v x0 y0 n0 :
  0 <= x0 -> 0 <= y0 ->
  eval v (init x0 y0) = true ->
  eval v (allTransitions_unpruned x0 y0 n0) = true ->
  forall k : nat,
    Z.of_nat k <= x0 + y0 - 1 -> Z.of_nat k <= n0 + 1 ->
    exists x y,
      0 <= x /\ 0 <= y /\ x + y = x0 + y0 - Z.of_nat k /\
      Z.even y = Z.even y0 /\
      eval v (bean black x (Z.of_nat k)) = true /\
      eval v (bean white y (Z.of_nat k)) = true.
Proof.
  intros Hx0 Hy0 Hi Hu. induction k as [|k IH]; intros Hk Hn.
  - apply eval_And2 in Hi as [Hb Hw].
    exists x0, y0. cbn [Z.of_nat]. repeat split; auto; lia.
  - destruct IH as (x & y & Hx & Hy & Ht & He & Hb & Hw); [lia | lia|].
    pose proof (unpruned_conjunct v x0 y0 n0 x y (Z.of_nat k) Hu
                  ltac:(lia) ltac:(lia) ltac:(lia)) as Himp.
    cbn [nextStep fst] in Himp. rewrite eval_Implies in Himp.
    assert (Hp : eval v (And [bean black x (Z.of_nat k);
                              bean white y (Z.of_nat k)]) = true)
      by (apply eval_And2; auto).
    apply Himp in Hp. apply eval_Or in Hp as (f & Hf & Hv).
    replace (Z.of_nat (S k)) with (Z.of_nat k + 1) by lia.
    apply NextConfs_In in Hf as [[H1 ->] | [[H2 ->] | [H3 _]]].
    + apply rule1_iff in H1. apply eval_And2 in Hv as [? ?].
      exists (x + 1), (y - 2). repeat split; auto; try lia.
      rewrite <- He. replace (y - 2) with (y + 2 * (-1)) by lia.
      apply Z.even_add_mul_2.
    + apply rule2_iff in H2. apply eval_And2 in Hv as [? ?].
      exists (x - 1), y. repeat split; auto; lia.
    + apply rule3_iff in H3 as [[= -> ->] | [= -> ->]]; lia.
Qed.

(** With an even number of white beans the formula built on the
    conjunction without pruning has no model at the default bound. *)
Lemma unpruned_default_bound_unsat x y :
  0 <= x -> 0 <= y -> 1 <= x + y -> Z.even y = true ->
  ~ satisfiable
      (And [init x y; final 0 1 (x + y - 1);
            allTransitions_unpruned x y (x + y - 1);
            uniqueVals x y (x + y - 1)]).
Proof.
  intros Hx Hy Hxy He [v Hv]. rewrite eval_And in Hv.
  assert (Hi : eval v (init x y) = true) by (apply Hv; simpl; auto).
  assert (Hf : eval v (final 0 1 (x + y - 1)) = true)
    by (apply Hv; simpl; auto).
  assert (Ht : eval v (allTransitions_unpruned x y (x + y - 1)) = true)
    by (apply Hv; simpl; auto).
  assert (Hu : eval v (uniqueVals x y (x + y - 1)) = true)
    by (apply Hv; simpl; auto 6).
  destruct (unpruned_forces_play v x y (x + y - 1) Hx Hy Hi Ht
              (Z.to_nat (x + y - 1)) ltac:(lia) ltac:(lia))
    as (a & b & Ha & Hb & Hs & Hpar & _ & Hw).
  replace (Z.of_nat (Z.to_nat (x + y - 1))) with (x + y - 1) in * by lia.
  assert (b <> 1) by (intros ->; rewrite He in Hpar; discriminate).
  apply eval_And2 in Hf as [_ Hfw].
  apply uniqueVals_step with (i := x + y - 1) in Hu; [|lia].
  assert (b = 1); [|lia].
  apply (uniqueVal_at_most_one v x y (x + y - 1) white b 1 Hu); auto; lia.
Qed.

(** ** The sweep on the input of [main] *)

Lemma sweep_10_10_round_2 :
  next_transitions (sweep_after 10 10 2) = [(10, 8); (8, 10)].
Proof. vm_compute. reflexivity. Qed.

(** C2. On the input of [main], (10,10) with bound 19, the sweep does
    exclude a configuration that is a next configuration of one it has
    expanded: it expands (11,8) at step 1, [nextStep] returns (12,6)
    for it, and (12,6) is not expanded at step 2, because the tuple
    assignment in the inner [for] has replaced the successors of (11,8)
    by those of (9,10).  The pruning changes the verdict: the formula
    built on [allTransitions] has a model, the one built on the variant
    without pruning has none. *)
Theorem sweep_drops_reachable_configuration :
  (expanded 10 10 19 (11, 8) 1 /\
   In (12, 6) (snd (nextStep 11 8 1)) /\
   ~ expanded 10 10 19 (12, 6) 2) /\
  satisfiable
    (And [init 10 10; final 0 1 19;
          allTransitions 10 10 19; uniqueVals 10 10 19]) /\
  ~ satisfiable
      (And [init 10 10; final 0 1 19;
            allTransitions_unpruned 10 10 19; uniqueVals 10 10 19]).
Proof.
  split; [split; [|split]|split].
  - exists (while_body 10 10 (Sweep [] [(10, 10)] 0)).
    split; [apply reaches_round; [apply reaches_start | reflexivity]|].
    repeat split. vm_compute. auto.
  - vm_compute. auto.
  - intros (s & Hs & _ & Hn & Hin & _).
    apply sweep_reaches_after in Hs. rewrite Hn in Hs. subst s.
    change (Z.to_nat 2) with 2%nat in Hin.
    rewrite sweep_10_10_round_2 in Hin.
    destruct Hin as [E | [E | []]]; discriminate.
  - eexists. apply Gries_10_10_19_model.
  - apply (unpruned_default_bound_unsat 10 10); try lia. reflexivity.
Qed.

(** ** Steps without a configuration *)

Lemma model_of_empty_step beans d c n :
  (forall c' val n', In (c', val, n') beans -> n' <> n) ->
  ~ exactly_one_count (model_of beans) d c n.
Proof.
  intros H (val & _ & Hv & _).
  apply model_of_spec in Hv. exact (H _ _ _ Hv eq_refl).
Qed.

(** C3. The formula of [Gries] has models in which a step of [0, n]
    has no true count variable at all, for either colour: for the
    input (1,0) with bound 2, step 1 (the self-loop of rule 3 is built
    on the variables of step 0 and constrains nothing after it); for
    the input of [main], (10,10) with bound 19, step 3 (the sweep has
    dropped (12,6), so nothing follows it). *)
Theorem Gries_models_with_empty_steps :
  (exists f v,
      Gries 1 0 2 = Ok f /\ eval v f = true /\ 0 <= 1 <= 2 /\
      forall c, ~ exactly_one_count v (1 + 0) c 1) /\
  (exists f v,
      Gries 10 10 19 = Ok f /\ eval v f = true /\ 0 <= 3 <= 19 /\
      forall c, ~ exactly_one_count v (10 + 10) c 3).
Proof.
  split.
  - eexists.
    exists (model_of [(black, 1, 0); (white, 0, 0);
                      (black, 0, 2); (white, 1, 2)]).
    split; [apply Gries_Ok; lia|].
    split; [apply Gries_1_0_model; lia|].
    split; [lia|].
    intros c. apply model_of_empty_step. intros c' val n' Hin.
    simpl in Hin.
    repeat match goal with
           | H : _ \/ _ |- _ => destruct H
           | H : False |- _ => destruct H
           | H : (_, _, _) = (_, _, _) |- _ => injection H as ? ? ?
           end; lia.
  - eexists. exists (model_of trace_10_10).
    split; [apply Gries_Ok; lia|].
    split; [apply Gries_10_10_19_model|].
    split; [lia|].
    intros c. apply model_of_empty_step. intros c' val n' Hin.
    unfold trace_10_10 in Hin. simpl in Hin.
    repeat match goal with
           | H : _ \/ _ |- _ => destruct H
           | H : False |- _ => destruct H
           | H : (_, _, _) = (_, _, _) |- _ => injection H as ? ? ?
           end; lia.
Qed.

(** ** The verdict on the input of [main] *)




(** ** The range test and a negative count *)

(** C8, as stated, fails: the input (-1,2) has x0+y0 >= 1 and passes
    the assertions of [Gries], and the range test discards its start
    (-1,2), the one configuration the sweep holds. *)
Lemma range_check_discards_negative_start :
  1 <= -1 + 2 /\
  (exists f, Gries (-1) 2 0 = Ok f) /\
  sweep_reaches (-1) 2 0 (Sweep [] [(-1, 2)] 0) /\
  In (-1, 2) (next_transitions (Sweep [] [(-1, 2)] 0)) /\
  in_range (fst (-1, 2)) 0 (-1 + 2 + 1)
    && in_range (snd (-1, 2)) 0 (-1 + 2 + 1) = false.
Proof.
  split; [lia|]. split; [eexists; reflexivity|].
  split; [apply reaches_start|]. split; [left|]; reflexivity.
Qed.
